(** * IgePathFinder: the grid path search of the engine core

    A shallow embedding of [src/engine/core/IgePathFinder.js] ([aStar],
    [_getNeighbours], [_heuristic]) and the properties of the search that
    the specification states about it.

    JavaScript values are modelled as follows.
    - Coordinates are integers ([Z]); the numbers stored in [score] and [h]
      are rationals ([Q]); a property that is absent reads as [undefined],
      which is [None].
    - An object put on the open list is a [Node]: the caller's start point or
      an [IgePathNode] made by [_getNeighbours].
    - [openListHash] and [closedListHash] are objects used as sets of
      property keys ([gset Key]).
    - [tileMap.map._mapData] is a table of rows indexed by [y], each row a
      table indexed by [x].
    - The events sent with [emit], the lines written with [log] and the
      invocations of the comparison callback are recorded in the state. *)

From Stdlib Require Import ZArith QArith Qabs List String.
From stdpp Require Import base gmap sets list.
Close Scope Q_scope.
Local Open Scope Z_scope.
Set Warnings "-clear-no-such-hyp".

(** ** Objects on the lists *)

(** A property key of the two hash objects. A path node's [hash] is the key
    of its coordinate; reading [hash] from an object that has none gives
    [undefined], the key [None]. *)
Definition Key : Type := option (Z * Z).

(** The [link] property: absent, the number 1 (written on the start point),
    or the predecessor object. *)
Inductive Node : Type :=
  | mkNode (x y : Z) (score h : option Q) (hash : Key) (link : Link)
with Link : Type :=
  | LinkUndefined
  | LinkOne
  | LinkTo (predecessor : Node).

Definition node_x (n : Node) : Z := let (x, _, _, _, _, _) := n in x.
Definition node_y (n : Node) : Z := let (_, y, _, _, _, _) := n in y.
Definition node_score (n : Node) : option Q := let (_, _, s, _, _, _) := n in s.
Definition node_h (n : Node) : option Q := let (_, _, _, h, _, _) := n in h.
Definition node_hash (n : Node) : Key := let (_, _, _, _, k, _) := n in k.
Definition node_link (n : Node) : Link := let (_, _, _, _, _, l) := n in l.

Definition coord (n : Node) : Z * Z := (node_x n, node_y n).

(** Modelled from the spec: the class [IgePathNode] is not in the sources.
    The spec's SearchNode has the coordinate, the [score] given at
    construction, a priority and a predecessor that are set by the search,
    and is keyed by its coordinate. *)
Definition IgePathNode (x y : Z) (score : Q) : Node :=
  mkNode x y (Some score) None (Some (x, y)) LinkUndefined.

(** Modelled from the spec: the class [IgePoint] is not in the sources. The
    spec's Point is a coordinate and nothing else. *)
Definition IgePoint (x y : Z) : Node :=
  mkNode x y None None None LinkUndefined.

(** [a < b] on numbers that may be [undefined]: [undefined] converts to NaN
    and every comparison with NaN is false. *)
Definition js_lt (a b : option Q) : bool :=
  match a, b with
  | Some p, Some q => negb (Qle_bool q p)
  | _, _ => false
  end.

(** [_heuristic]: [Math.abs(x1 - x2) + Math.abs(y1 - y2)]. *)
Definition _heuristic (x1 y1 x2 y2 : Z) : Q :=
  inject_Z (Z.abs (x1 - x2) + Z.abs (y1 - y2)).

(** ** Notifications and diagnostics *)

Inductive Event : Type :=
  | pathFound (finalPath : list Node)
  | noPathFound
  | exceededLimit.

(** A line of the log: the text and the level, when one is given. *)
Definition LogLine : Type := string * option string.

Definition log_unpathable : LogLine :=
  ("Cannot path to destination because the destination tile is not pathable!"%string, None).
Definition log_exceeded : LogLine :=
  ("Path finder error, open list nodes exceeded 1000!"%string, Some "error"%string).
Definition log_no_path : LogLine :=
  ("Could not find a path to destination!"%string, None).

Section PathFinder.

Context {TileData : Type}.

(** [mapData[y][x]], the rows and the cells being tables that may lack an
    entry. The table holds the truthy tile values: a stored value that is
    falsy reads as [null] exactly as a missing one does. *)
Definition MapData : Type := gmap Z (gmap Z TileData).

(** [mapData[newY] && mapData[newY][newX] ? mapData[newY][newX] : null] *)
Definition tileAt (mapData : MapData) (newX newY : Z) : option TileData :=
  match mapData !! newY with
  | Some row => row !! newX
  | None => None
  end.

(** The comparison callback: tile data or [null], and the coordinate. *)
Definition Callback : Type := option TileData → Z → Z → bool.

(** One invocation of the callback. *)
Definition Call : Type := (option TileData * Z * Z)%type.

(** ** Neighbour generation *)

(** One candidate of [_getNeighbours]: look the tile up, ask the callback,
    and on acceptance append a new node to [list]. *)
Definition candidate (mapData : MapData) (comparisonCallback : Callback)
    (newX newY : Z) (moveCost : Q) (acc : list Node * list Call)
    : list Node * list Call :=
  let tileData := tileAt mapData newX newY in
  let calls := acc.2 ++ [(tileData, newX, newY)] in
  if comparisonCallback tileData newX newY
  then (acc.1 ++ [IgePathNode newX newY moveCost], calls)
  else (acc.1, calls).

Definition squareCandidates (mapData : MapData) (cb : Callback) (x y : Z)
    (acc : list Node * list Call) : list Node * list Call :=
  let acc := candidate mapData cb (x - 1) y 1%Q acc in
  let acc := candidate mapData cb (x + 1) y 1%Q acc in
  let acc := candidate mapData cb x (y - 1) 1%Q acc in
  candidate mapData cb x (y + 1) 1%Q acc.

Definition diagonalCandidates (mapData : MapData) (cb : Callback) (x y : Z)
    (acc : list Node * list Call) : list Node * list Call :=
  let acc := candidate mapData cb (x - 1) (y - 1) (14 # 10)%Q acc in
  let acc := candidate mapData cb (x + 1) (y - 1) (14 # 10)%Q acc in
  let acc := candidate mapData cb (x - 1) (y + 1) (14 # 10)%Q acc in
  candidate mapData cb (x + 1) (y + 1) (14 # 10)%Q acc.

(** [_getNeighbours]: the list of new nodes, and the callback invocations
    it made, in order. *)
Definition _getNeighbours (currentNode : Node) (mapData : MapData)
    (comparisonCallback : Callback) (allowSquare allowDiagonal : bool)
    : list Node * list Call :=
  let x := node_x currentNode in
  let y := node_y currentNode in
  let acc := ([], []) in
  let acc := if allowSquare
             then squareCandidates mapData comparisonCallback x y acc else acc in
  if allowDiagonal
  then diagonalCandidates mapData comparisonCallback x y acc else acc.

(** ** The state of a call *)

Record State : Type := mkState {
  openList : list Node;
  closedList : list Node;
  openListHash : gset Key;
  closedListHash : gset Key;
  emitted : list Event;
  logged : list LogLine;
  calls : list Call
}.

(** What a call gives back: the returned array and the state it ended in. *)
Record Result : Type := mkResult {
  returned : list Node;
  final : State
}.

Definition emit (e : Event) (st : State) : State :=
  mkState (openList st) (closedList st) (openListHash st) (closedListHash st)
          (emitted st ++ [e]) (logged st) (calls st).

Definition log (l : LogLine) (st : State) : State :=
  mkState (openList st) (closedList st) (openListHash st) (closedListHash st)
          (emitted st) (logged st ++ [l]) (calls st).

(** ** Selection of the next node *)

(** The inner [while (openCount--)] loop: [openCount] runs from the length
    down, the body sees the decremented value. Both indices stay below the
    length, so both reads find an object. *)
Fixpoint lowestScan (openList : list Node) (openCount lowInd : nat) : nat :=
  match openCount with
  | O => lowInd
  | S openCount' =>
      let lowInd' :=
        match openList !! openCount', openList !! lowInd with
        | Some a, Some b => if js_lt (node_h a) (node_h b) then openCount' else lowInd
        | _, _ => lowInd
        end in
      lowestScan openList openCount' lowInd'
  end.

Definition lowestIndex (openList : list Node) : nat :=
  lowestScan openList (length openList) 0.

(** ** Path reconstruction *)

(** [while (pathPoint.link) { finalPath.push(pathPoint); pathPoint =
    pathPoint.link; }]: the number 1 has no [link], so the object that
    carries it is the last one pushed. *)
Fixpoint finalPath (pathPoint : Node) : list Node :=
  match node_link pathPoint with
  | LinkTo p => pathPoint :: finalPath p
  | LinkOne => [pathPoint]
  | LinkUndefined => []
  end.

(** ** One neighbour *)

Definition set_score (s : option Q) (n : Node) : Node :=
  mkNode (node_x n) (node_y n) s (node_h n) (node_hash n) (node_link n).
Definition set_h (h : option Q) (n : Node) : Node :=
  mkNode (node_x n) (node_y n) (node_score n) h (node_hash n) (node_link n).
Definition set_link (l : Link) (n : Node) : Node :=
  mkNode (node_x n) (node_y n) (node_score n) (node_h n) (node_hash n) l.

Definition set_openList (l : list Node) (st : State) : State :=
  mkState l (closedList st) (openListHash st) (closedListHash st)
          (emitted st) (logged st) (calls st).

(** The body of the loop over the neighbours. [neighbourNode] is the object
    that [_getNeighbours] has just made; the result is the state and that
    object after the writes. The array keeps a reference to the object it
    is given, so the writes to [link] and [h] that follow the [push] show in
    the open list: the object is appended with them. *)
Definition visitNeighbour (endPoint currentNode : Node) (st : State)
    (neighbourNode : Node) : State * Node :=
  if decide (node_hash neighbourNode ∈ closedListHash st) then (st, neighbourNode)
  else
    let gScore := node_score currentNode in
    if decide (node_hash neighbourNode ∈ openListHash st) then
      (* The neighbour node is in the open list already *)
      let bestScore := js_lt gScore (node_score neighbourNode) in
      let neighbourNode :=
        if bestScore
        then set_h (node_score neighbourNode)
                   (set_link (LinkTo currentNode) neighbourNode)
        else neighbourNode in
      (st, neighbourNode)
    else
      (* The neighbour node is not in the open list yet *)
      let bestScore := true in
      let neighbourNode :=
        set_score (Some (_heuristic (node_x neighbourNode) (node_y neighbourNode)
                                    (node_x endPoint) (node_y endPoint)))
                  neighbourNode in
      let neighbourNode :=
        if bestScore
        then set_h (node_score neighbourNode)
                   (set_link (LinkTo currentNode) neighbourNode)
        else neighbourNode in
      (set_openList (openList st ++ [neighbourNode]) st, neighbourNode).

(** [while (neighborCount--)]: the neighbours are taken from the last to
    the first. *)
Definition visitNeighbours (endPoint currentNode : Node) (st : State)
    (neighbourList : list Node) : State :=
  foldl (λ s nb, (visitNeighbour endPoint currentNode s nb).1) st
        (rev neighbourList).

(** ** The main loop *)

(** How a call ends: with a returned array, or with the TypeError of
    reading a property of [undefined]. *)
Inductive Completion : Type :=
  | Return (r : Result)
  | Throw.

Inductive Step : Type :=
  | Continue (st : State)
  | Done (c : Completion).

(** The statements after the loop. *)
Definition afterLoop (st : State) : Completion :=
  Return (mkResult [] (emit noPathFound (log log_no_path st))).

(** The turn that moves [currentNode] from the open to the closed list and
    looks at its neighbours. *)
Definition expand (mapData : MapData) (comparisonCallback : Callback)
    (endPoint : Node) (allowSquare allowDiagonal : bool)
    (lowInd : nat) (currentNode : Node) (st : State) : State :=
  let st1 :=
    mkState (delete lowInd (openList st))
            (closedList st ++ [currentNode])
            (openListHash st ∖ {[node_hash currentNode]})
            ({[node_hash currentNode]} ∪ closedListHash st)
            (emitted st) (logged st) (calls st) in
  let nbs := _getNeighbours currentNode mapData comparisonCallback
                            allowSquare allowDiagonal in
  let st2 :=
    mkState (openList st1) (closedList st1) (openListHash st1)
            (closedListHash st1) (emitted st1) (logged st1)
            (calls st1 ++ nbs.2) in
  visitNeighbours endPoint currentNode st2 nbs.1.

(** What one turn of [while (openList.length)] does. *)
Definition iteration (mapData : MapData) (comparisonCallback : Callback)
    (endPoint : Node) (allowSquare allowDiagonal : bool) (st : State) : Step :=
  if (length (openList st) =? 0)%nat then Done (afterLoop st)
  else if (999 <? length (openList st))%nat then
    Done (afterLoop (emit exceededLimit (log log_exceeded st)))
  else
    let lowInd := lowestIndex (openList st) in
    match openList st !! lowInd with
    | None => Done Throw
    | Some currentNode =>
        if (node_x currentNode =? node_x endPoint)
           && (node_y currentNode =? node_y endPoint)
        then
          let path := finalPath currentNode in
          Done (Return (mkResult (rev path) (emit (pathFound path) st)))
        else
          Continue (expand mapData comparisonCallback endPoint
                           allowSquare allowDiagonal lowInd currentNode st)
    end.

(** The loop, with a bound on the number of turns: [None] when the bound is
    reached before the loop has ended. *)
Fixpoint loop (fuel : nat) (mapData : MapData) (comparisonCallback : Callback)
    (endPoint : Node) (allowSquare allowDiagonal : bool) (st : State)
    : option Completion :=
  match fuel with
  | O => None
  | S fuel' =>
      match iteration mapData comparisonCallback endPoint
                      allowSquare allowDiagonal st with
      | Continue st' =>
          loop fuel' mapData comparisonCallback endPoint
               allowSquare allowDiagonal st'
      | Done c => Some c
      end
  end.

(** The state at the head of the turn after [n] turns, when the loop has
    not ended before. *)
Fixpoint turns (n : nat) (mapData : MapData) (comparisonCallback : Callback)
    (endPoint : Node) (allowSquare allowDiagonal : bool) (st : State)
    : option State :=
  match n with
  | O => Some st
  | S n' =>
      match iteration mapData comparisonCallback endPoint
                      allowSquare allowDiagonal st with
      | Continue st' =>
          turns n' mapData comparisonCallback endPoint
                allowSquare allowDiagonal st'
      | Done _ => None
      end
  end.

(** ** [aStar] *)

(** The defaults of the two flags. *)
Definition flag (given : option bool) (default : bool) : bool :=
  match given with Some b => b | None => default end.

(** The state when the loop is entered: the start point, with [link] set to
    1, is the one entry of the open list, and its [hash] the one key of
    [openListHash]. The node [startNode] is made and not used. *)
Definition seed (startPoint : Node) (callsSoFar : list Call) : State :=
  let startNode := IgePathNode (node_x startPoint) (node_y startPoint) 0%Q in
  let startPoint := set_link LinkOne startPoint in
  mkState [startPoint] [] {[node_hash startPoint]} ∅ [] [] callsSoFar.

Definition aStar (fuel : nat) (mapData : MapData) (startPoint endPoint : Node)
    (comparisonCallback : Callback) (allowSquare allowDiagonal : option bool)
    : option Completion :=
  let allowSquare := flag allowSquare true in
  let allowDiagonal := flag allowDiagonal false in
  let endPointCheckTile := tileAt mapData (node_x endPoint) (node_y endPoint) in
  let gate := [(endPointCheckTile, node_x endPoint, node_y endPoint)] in
  if negb (comparisonCallback endPointCheckTile (node_x endPoint) (node_y endPoint))
  then
    Some (Return (mkResult []
       (log log_unpathable
            (mkState [] [] ∅ ∅ [] [] gate))))
  else
    loop fuel mapData comparisonCallback endPoint allowSquare allowDiagonal
         (seed startPoint gate).

(** The state of the call at the head of the turn that follows [n] turns
    of the loop, when the loop is entered and has not ended before. *)
Definition headOfTurn (n : nat) (mapData : MapData) (startPoint endPoint : Node)
    (comparisonCallback : Callback) (allowSquare allowDiagonal : option bool)
    : option State :=
  let endPointCheckTile := tileAt mapData (node_x endPoint) (node_y endPoint) in
  if negb (comparisonCallback endPointCheckTile (node_x endPoint) (node_y endPoint))
  then None
  else
    turns n mapData comparisonCallback endPoint
          (flag allowSquare true) (flag allowDiagonal false)
          (seed startPoint
                [(endPointCheckTile, node_x endPoint, node_y endPoint)]).

End PathFinder.

Arguments MapData TileData : clear implicits.
Arguments Callback TileData : clear implicits.
Arguments State TileData : clear implicits.
Arguments Result TileData : clear implicits.
Arguments Completion TileData : clear implicits.
Arguments Step TileData : clear implicits.

(** * IgeAnimationComponent: timed animation of an entity

    A shallow embedding of the component of [src/unnamed/part_000] ([init],
    [define], [start], [stop], [tick]).

    - The times and counts ([fps], [loop], [tickDelta], the fields of an
      animation) are numbers that hold integers ([Z]). A quotient [a / b] is
      used in two ways only, compared with 1 in absolute value and cut to an
      integer with [|0]; it is taken exactly ([Quotient]). The double that
      JavaScript computes for two integers below 2^53 has the same integer
      part and compares with 1 in the same way.
    - An animation is an object that [_anims] and [_anim] both refer to:
      the objects are kept in a store, in the order in which [define] made
      them, and referred to by their index.
    - [Id] stands for the ids that are not names of properties that the
      object [_anims] has without having been given them ([length] and the
      properties of every object).
    - The cells passed to [this._entity.cell] and the warnings logged are
      recorded in the component. *)

Module IgeAnimationComponent.

(** The value of [a / b]. *)
Inductive Quotient : Type :=
  | Finite (q : Q)
  | PlusInfinity
  | MinusInfinity
  | NotANumber.

Definition divide (a b : Z) : Quotient :=
  if b =? 0 then
    if a =? 0 then NotANumber
    else if 0 <? a then PlusInfinity else MinusInfinity
  else if 0 <? b then Finite (a # Z.to_pos b)
  else Finite (- a # Z.to_pos (- b)).

(** [Math.abs(m) > 1] *)
Definition absAboveOne (m : Quotient) : bool :=
  match m with
  | Finite q => negb (Qle_bool (Qabs q) 1)
  | PlusInfinity | MinusInfinity => true
  | NotANumber => false
  end.

(** The conversion to a 32-bit integer that [|0] applies to an integer. *)
Definition toInt32 (z : Z) : Z := (z + 2 ^ 31) mod 2 ^ 32 - 2 ^ 31.

(** [m|0]: the integer part, as a 32-bit integer; 0 for the values that are
    not finite. *)
Definition orZero (m : Quotient) : Z :=
  match m with
  | Finite q => toInt32 (Z.quot (Qnum q) (Z.pos (Qden q)))
  | _ => 0
  end.

Section Component.

Context {Id : Type} `{Countable Id} {Cell : Type}.

(** An animation object. [loop] is the number given to [define]; a loop
    that is missing or [false] behaves as 0. *)
Record Anim : Type := mkAnim {
  frames : list Cell;
  frameTime : Z;
  loop : Z;
  frameCount : Z;
  totalTime : Z;
  currentDelta : Z;
  currentLoop : Z;
  startTime : option Z
}.

Inductive Warning : Type :=
  | animationDoesNotExist (animId : Id).

(** The component: the store of animation objects, [_anims] (the object
    that [define] fills, with its [length]), [_anim] and [_animId], and what
    it has done to the entity and written to the log. *)
Record Component : Type := mkComponent {
  store : list Anim;
  _anims : gmap Id nat;
  _anims_length : option nat;
  _anim : option nat;
  _animId : option Id;
  shown : list (option Cell);
  warned : list Warning
}.

(** [init] *)
Definition init : Component := mkComponent [] ∅ None None None [] [].

(** [define] *)
Definition define (id : Id) (frames : list Cell) (fps loop : Z)
    (c : Component) : Component :=
  let length := default 0%nat (_anims_length c) in
  let frameTime := orZero (divide 1000 fps) in
  let anim :=
    mkAnim frames frameTime loop (Z.of_nat (List.length frames))
           (Z.of_nat (List.length frames) * frameTime) 0 0 None in
  mkComponent (store c ++ [anim]) (<[id := List.length (store c)]> (_anims c))
              (Some (S length)) (_anim c) (_animId c) (shown c) (warned c).

(** [start], at the time [now] of [new Date().getTime()]. The object
    [_anims] exists from [init] on, so the outer [else] is not reached. *)
Definition start (animId : Id) (now : Z) (c : Component) : Component :=
  match _anims c !! animId with
  | Some ref =>
      let restarted :=
        alter (λ anim,
          mkAnim (frames anim) (frameTime anim) (loop anim) (frameCount anim)
                 (totalTime anim) 0 0 (Some now)) ref (store c) in
      mkComponent restarted (_anims c) (_anims_length c) (Some ref)
                  (Some animId) (shown c) (warned c)
  | None =>
      mkComponent (store c) (_anims c) (_anims_length c) (_anim c)
                  (_animId c) (shown c)
                  (warned c ++ [animationDoesNotExist animId])
  end.

(** [stop] *)
Definition stop (c : Component) : Component :=
  mkComponent (store c) (_anims c) (_anims_length c) None None
              (shown c) (warned c).

Definition set_currentDelta (d : Z) (anim : Anim) : Anim :=
  mkAnim (frames anim) (frameTime anim) (loop anim) (frameCount anim)
         (totalTime anim) d (currentLoop anim) (startTime anim).
Definition set_currentLoop (n : Z) (anim : Anim) : Anim :=
  mkAnim (frames anim) (frameTime anim) (loop anim) (frameCount anim)
         (totalTime anim) (currentDelta anim) n (startTime anim).

(** "Loop back round to the beginning": the same statements in both
    branches of [tick]. *)
Definition loopBack (anim : Anim) : Anim :=
  let multiple := divide (currentDelta anim) (totalTime anim) in
  if absAboveOne multiple
  then set_currentDelta
         (currentDelta anim - orZero multiple * totalTime anim) anim
  else anim.

(** [anim.frames[frame]]: [undefined] at a negative index and past the
    end. *)
Definition frameAt (anim : Anim) (frame : Z) : option Cell :=
  if frame <? 0 then None else frames anim !! Z.to_nat frame.

(** [tick], with [ige.tickDelta]; [None] is the TypeError of reading
    [currentDelta] from [undefined], when no animation is started. The local
    [anim] keeps referring to the animation after [this.stop()]: the frame is
    computed and shown all the same. *)
Definition tick (tickDelta : Z) (c : Component) : option Component :=
  match _anim c with
  | None => None
  | Some ref =>
      match store c !! ref with
      | None => None
      | Some anim =>
          let anim := set_currentDelta (currentDelta anim + tickDelta) anim in
          let '(anim, stopped) :=
            if totalTime anim <? currentDelta anim then
              if loop anim =? 0 then (anim, true)
              else if loop anim =? -1 then (loopBack anim, false)
              else
                let anim := set_currentLoop (currentLoop anim + 1) anim in
                if (0 <? loop anim) && (currentLoop anim <=? loop anim)
                then (loopBack anim, false)
                else (anim, true)
            else (anim, false) in
          let frame := orZero (divide (currentDelta anim) (frameTime anim)) in
          let frame :=
            if frameCount anim <=? frame then frameCount anim - 1 else frame in
          let cell := frameAt anim frame in
          let c := if stopped then stop c else c in
          Some (mkComponent (<[ref := anim]> (store c)) (_anims c)
                            (_anims_length c) (_anim c) (_animId c)
                            (shown c ++ [cell]) (warned c))
      end
  end.

End Component.

Arguments Anim Cell : clear implicits.
Arguments Warning Id : clear implicits.
Arguments Component Id {_ _} Cell.

(** ** Notions used in the properties of the component *)

Section Notions.

Context {Id : Type} `{Countable Id} {Cell : Type}.

(** The components that calls of the four methods make of a new one. *)
Inductive Reachable : Component Id Cell -> Prop :=
  | reach_init : Reachable init
  | reach_define id frames fps loop c :
      Reachable c -> Reachable (define id frames fps loop c)
  | reach_start animId now c :
      Reachable c -> Reachable (start animId now c)
  | reach_stop c :
      Reachable c -> Reachable (stop c)
  | reach_tick tickDelta c c' :
      Reachable c -> tick tickDelta c = Some c' -> Reachable c'.

(** A run of ticks, one for each [ige.tickDelta] of the list. *)
Fixpoint ticks (tickDeltas : list Z) (c : Component Id Cell)
    : option (Component Id Cell) :=
  match tickDeltas with
  | [] => Some c
  | tickDelta :: rest =>
      match tick tickDelta c with
      | Some c' => ticks rest c'
      | None => None
      end
  end.

(** The relations that [define] gives the fields of an animation. *)
Definition Made (anim : Anim Cell) : Prop :=
  frameCount anim = Z.of_nat (List.length (frames anim)) /\
  totalTime anim = frameCount anim * frameTime anim.

(** The component is playing the object [ref], whose fields are [anim]. *)
Definition Playing (c : Component Id Cell) (ref : nat) (anim : Anim Cell)
    : Prop :=
  _anim c = Some ref /\ store c !! ref = Some anim.

(** Two states of one animation: the fields that [tick] leaves alone. *)
Definition sameAnimation (a b : Anim Cell) : Prop :=
  frames b = frames a /\ frameTime b = frameTime a /\ loop b = loop a /\
  frameCount b = frameCount a /\ totalTime b = totalTime a.

(** What holds of every reachable component. *)
Record Valid (c : Component Id Cell) : Prop := mkValid {
  valid_made : Forall Made (store c);
  valid_anim : forall ref, _anim c = Some ref ->
                 (ref < List.length (store c))%nat;
  valid_anims : forall id ref, _anims c !! id = Some ref ->
                 (ref < List.length (store c))%nat;
  valid_id : _anim c = None <-> _animId c = None;
  valid_length : (size (_anims c) <= default 0 (_anims_length c))%nat
}.

End Notions.

(** An entity with four cells, ten frames a second, looping for ever. *)
Definition walkCells : list Z := [1; 2; 3; 4].
Definition walking : Component nat Z :=
  start 0%nat 5000 (define 0%nat walkCells 10 (-1) init).
(** The same cells shown once, and shown with two repeats. *)
Definition walkingOnce : Component nat Z :=
  start 0%nat 5000 (define 0%nat walkCells 10 0 init).
Definition walkingThrice : Component nat Z :=
  start 0%nat 5000 (define 0%nat walkCells 10 2 init).
(** The object that [define] makes of them, as [start] leaves it. *)
Definition walkAnim (loop : Z) : Anim Z :=
  mkAnim walkCells 100 loop 4 400 0 0 (Some 5000).
(** The entity shown with two repeats after two ticks of 450, each of which
    took it past the end: both repeats are counted, and the time is 100. *)
Definition walkingRepeated : Component nat Z :=
  default walkingThrice (ticks [450; 450] walkingThrice).
Definition walkAnimRepeated : Anim Z :=
  mkAnim walkCells 100 2 4 400 100 2 (Some 5000).

End IgeAnimationComponent.

(** * Notions used in the statements *)

(** ** Observing a call *)


(** The coordinates of the returned array. *)
Definition route {TileData : Type}
    (c : option (Completion TileData)) : option (list (Z * Z)) :=
  match c with
  | Some (Return r) => Some (coord <$> returned r)
  | _ => None
  end.

(** The [score] of the last object of the returned array. *)
Definition goalScore {TileData : Type}
    (c : option (Completion TileData)) : option (option Q) :=
  match c with
  | Some (Return r) => node_score <$> last (returned r)
  | _ => None
  end.

(** The [score] of every object of the returned array. *)
Definition scoresOf {TileData : Type}
    (c : option (Completion TileData)) : list (option Q) :=
  match c with
  | Some (Return r) => node_score <$> returned r
  | _ => []
  end.

(** How many objects the two lists hold when a call has ended, what it has
    sent to the notification sink, and how many points it has returned. *)
Definition ending {TileData : Type} (c : option (Completion TileData))
    : option (nat * nat * list Event * nat) :=
  match c with
  | Some (Return r) =>
      Some (length (openList (final r)), length (closedList (final r)),
            emitted (final r), length (returned r))
  | _ => None
  end.


(** What is read from an object of a list: the coordinate, [score], [h],
    and the coordinate of the object that [link] refers to. *)
Definition linkOf (n : Node) : option (Z * Z) :=
  match node_link n with LinkTo p => Some (coord p) | _ => None end.
Definition view (n : Node) : Z * Z * option Q * option Q * option (Z * Z) :=
  (coord n, node_score n, node_h n, linkOf n).

(** ** Selection *)

(** Two priorities that are numbers, and equal ones. *)
Definition js_eq (a b : option Q) : Prop :=
  ∃ p q, a = Some p ∧ b = Some q ∧ (p == q)%Q.

(** The priority read at an index; [undefined] past the end. *)
Definition prio (l : list Node) (i : nat) : option Q :=
  match l !! i with Some n => node_h n | None => None end.

(** What the scan has established when [openCount] is [k] and the candidate
    is [c]. *)
Record ScanInv (l : list Node) (k c : nat) : Prop := {
  scan_in_range : (c < length l)%nat;
  scan_position : c = 0%nat ∨ (k ≤ c)%nat;
  scan_below_first : c ≠ 0%nat → js_lt (prio l c) (prio l 0) = true;
  scan_lowest : ∀ j, (k ≤ j)%nat → js_lt (prio l j) (prio l c) = false;
  scan_ties : ∀ j, (k ≤ j)%nat → js_eq (prio l j) (prio l c) →
              c = 0%nat ∨ (j ≤ c)%nat
}.

(** ** Turns of the loop *)

(** The object the search appends for a neighbour: the neighbour with
    [score] and [h] set to the distance to the end point and [link] set to
    the node being expanded. *)
Definition pushedNode (endPoint currentNode neighbourNode : Node) : Node :=
  let d := _heuristic (node_x neighbourNode) (node_y neighbourNode)
                      (node_x endPoint) (node_y endPoint) in
  mkNode (node_x neighbourNode) (node_y neighbourNode) (Some d) (Some d)
         (node_hash neighbourNode) (LinkTo currentNode).

(** How the loop can end, in terms of what had been emitted and logged when
    it was entered. *)
Definition LoopOutcome {TileData : Type} (endPoint : Node)
    (st : State TileData) (r : Result TileData) : Prop :=
  (∃ goal, coord goal = coord endPoint ∧
     returned r = rev (finalPath goal) ∧
     emitted (final r) = emitted st ++ [pathFound (finalPath goal)] ∧
     logged (final r) = logged st) ∨
  (returned r = [] ∧ openList (final r) = [] ∧
     emitted (final r) = emitted st ++ [noPathFound] ∧
     logged (final r) = logged st ++ [log_no_path]) ∨
  (returned r = [] ∧ (999 < length (openList (final r)))%nat ∧
     emitted (final r) = emitted st ++ [exceededLimit; noPathFound] ∧
     logged (final r) = logged st ++ [log_exceeded; log_no_path]).

(** What holds of [openListHash] at the head of a turn: it is empty, or
    holds the key of the one object of the open list. *)
Definition HashInv {TileData : Type} (st : State TileData) : Prop :=
  openListHash st = ∅ ∨
  ∃ s, openList st = [s] ∧ openListHash st = {[node_hash s]}.

(** ** Termination *)

(** The keys that the closed set can come to hold: the [hash] of the start
    point and the keys of a set of cells. *)
Definition keysOf (startPoint : Node) (cells : gset (Z * Z)) : gset Key :=
  {[node_hash startPoint]} ∪ set_map Some cells.

(** Every neighbour generated from the start point or from a cell of
    [cells] is in [cells]: the cells that can be reached from the start
    point are among [cells]. *)
Definition reachWithin {TileData : Type} (mapData : MapData TileData)
    (cb : Callback TileData) (sq dg : bool) (startPoint : Node)
    (cells : gset (Z * Z)) : Prop :=
  set_Forall
    (λ c, Forall (λ nb, coord nb ∈ cells)
                 (_getNeighbours (IgePoint c.1 c.2) mapData cb sq dg).1)
    ({[coord startPoint]} ∪ cells).

(** The nodes of the open list whose key is already closed. *)
Definition staleNodes {TileData : Type} (st : State TileData) : list Node :=
  filter (λ n, node_hash n ∈ closedListHash st) (openList st).

(** The largest size of the open list with which a turn expands a node. *)
Definition openLimit : nat := 999.

(** The quantity that every expanding turn lowers. *)
Definition potential {TileData : Type} (keys : gset Key)
    (st : State TileData) : nat :=
  openLimit * size (keys ∖ closedListHash st) + length (staleNodes st).

(** What holds of the lists at the head of every turn. *)
Record Within {TileData : Type} (startPoint : Node) (cells : gset (Z * Z))
    (st : State TileData) : Prop := {
  within_open : ∀ n, n ∈ openList st →
    (coord n = coord startPoint ∨ coord n ∈ cells) ∧
    node_hash n ∈ keysOf startPoint cells;
  within_closed : closedListHash st ⊆ keysOf startPoint cells
}.

(** ** The verdict at the start point *)

(** Two results of neighbour generation that made the same invocations and
    hold the same nodes, the nodes with the key [key] left aside. *)
Definition sameBut {TileData : Type} (key : Key)
    (a b : list Node * list (Call (TileData:=TileData))) : Prop :=
  a.2 = b.2 ∧
  filter (λ n, node_hash n ≠ key) a.1 = filter (λ n, node_hash n ≠ key) b.1.

(** The key of the start point is closed, or is about to be: it is the key
    of every object of the open list. *)
Definition startClosed {TileData : Type} (key : Key)
    (st : State TileData) : Prop :=
  key ∈ closedListHash st ∨ Forall (λ n, node_hash n = key) (openList st).

(** * Inputs of the examples *)

(** A row of [w] tiles, each holding the value 1, and a map of [h] such
    rows: a fully open rectangular grid. *)
Definition tiles (w : nat) : gmap Z nat :=
  list_to_map ((λ i, (Z.of_nat i, 1%nat)) <$> seq 0 w).
Definition openGrid (w h : nat) : MapData nat :=
  list_to_map ((λ j, (Z.of_nat j, tiles w)) <$> seq 0 h).

(** The callback that accepts every tile of the map and rejects [null]. *)
Definition isTile : Callback nat :=
  λ tileData _ _, match tileData with Some _ => true | None => false end.

(** ** The open grid of 4 columns and 5 rows *)

(** The call from (0, 0) to (3, 4) with square moves only, and the call to
    (9, 9), which is off the grid. *)
Definition gridCall : option (Completion nat) :=
  aStar 8 (openGrid 4 5) (IgePoint 0 0) (IgePoint 3 4) isTile
        (Some true) (Some false).

(** The state of the call from (0, 0) to (3, 4), with the default flags, at
    the head of the turn that follows [n] turns. *)
Definition gridTurn (n : nat) : State nat :=
  match headOfTurn n (openGrid 4 5) (IgePoint 0 0) (IgePoint 3 4) isTile
                   None None with
  | Some st => st
  | None => mkState [] [] ∅ ∅ [] [] []
  end.

(** The state in which the neighbours of a start point without [hash] are
    visited: the lists are empty and the closed keys hold the key of
    [undefined]. *)
Definition startExpanded : State nat := mkState [] [] ∅ {[None]} [] [] [].

(** The twenty cells of the grid. *)
Definition gridCells : gset (Z * Z) :=
  list_to_set (x ← [0; 1; 2; 3]; y ← [0; 1; 2; 3; 4]; [(x, y)]).

(** ** The open grid of 2000 columns and 2 rows *)

(** The call from (0, 0) to (1999, 1). *)
Definition stripCall : option (Completion nat) :=
  aStar 1000 (openGrid 2000 2) (IgePoint 0 0) (IgePoint 1999 1) isTile
        None None.

(** ** Five tiles *)

(** A map of five tiles, (0, 0), (1, 0), (0, 1), (1, 1) and (0, 2), and the
    callback that accepts every tile but the one at (0, 2). *)
Definition fiveTiles : MapData nat :=
  {[ 0 := tiles 2; 1 := tiles 2; 2 := tiles 1 ]}.
Definition isTileExceptStart : Callback nat :=
  λ tileData x y, isTile tileData x y && negb ((x =? 0) && (y =? 2)).

(** The call from (0, 2) to (1, 0), with the callback that accepts the tile
    of the start point and with the one that rejects it. *)
Definition acceptedStartCall : option (Completion nat) :=
  aStar 10 fiveTiles (IgePoint 0 2) (IgePoint 1 0) isTile None None.
Definition rejectedStartCall : option (Completion nat) :=
  aStar 10 fiveTiles (IgePoint 0 2) (IgePoint 1 0) isTileExceptStart None None.

(** ** A callback that accepts cells off the map *)

(** The callback that accepts the cells [(x, 0)] with [1 <= x], whatever
    the tile data, and the cell [(0, 5)]. *)
Definition corridor : Callback nat :=
  λ _ x y, ((y =? 0) && (1 <=? x)) || ((x =? 0) && (y =? 5)).

(** The state at the head of a turn of the search along the corridor: the
    open list holds the one object of the cell [(k, 0)], and the cells before
    it are closed. *)
Record AlongCorridor (k : Z) (st : State nat) : Prop := {
  along_position : 0 ≤ k;
  along_open : ∃ s h key l,
    openList st = [mkNode k 0 s h key l] ∧
    (key = None ∧ k = 0 ∨ key = Some (k, 0)) ∧
    openListHash st ⊆ {[key]};
  along_closed : ∀ key, key ∈ closedListHash st →
    key = None ∨ ∃ j, key = Some (j, 0) ∧ j < k;
  along_previous : 2 ≤ k → Some (k - 1, 0) ∈ closedListHash st
}.

(** * Notions used in the further properties *)

(** ** The cells around a node *)

(** The cells that [_getNeighbours] asks the callback about, in the order
    of the source, each with the movement cost its node is made with. *)
Definition squareCells (x y : Z) : list (Z * Z * Q) :=
  [(x - 1, y, 1%Q); (x + 1, y, 1%Q); (x, y - 1, 1%Q); (x, y + 1, 1%Q)].
Definition diagonalCells (x y : Z) : list (Z * Z * Q) :=
  [(x - 1, y - 1, (14 # 10)%Q); (x + 1, y - 1, (14 # 10)%Q);
   (x - 1, y + 1, (14 # 10)%Q); (x + 1, y + 1, (14 # 10)%Q)].
Definition candidateCells (sq dg : bool) (x y : Z) : list (Z * Z * Q) :=
  (if sq then squareCells x y else []) ++
  (if dg then diagonalCells x y else []).

(** The verdict of the callback on a cell of the map. *)
Definition accepts {TileData : Type} (mapData : MapData TileData)
    (cb : Callback TileData) (x y : Z) : bool :=
  cb (tileAt mapData x y) x y.

(** The node made for a candidate cell, the invocation of the callback on
    it, and the verdict. *)
Definition nodeOf (c : Z * Z * Q) : Node := IgePathNode c.1.1 c.1.2 c.2.
Definition callOf {TileData : Type} (mapData : MapData TileData)
    (c : Z * Z * Q) : Call (TileData:=TileData) :=
  (tileAt mapData c.1.1 c.1.2, c.1.1, c.1.2).
Definition accepted {TileData : Type} (mapData : MapData TileData)
    (cb : Callback TileData) (c : Z * Z * Q) : Prop :=
  accepts mapData cb c.1.1 c.1.2 = true.

#[global] Instance accepted_dec {TileData : Type}
    (mapData : MapData TileData) (cb : Callback TileData) (c : Z * Z * Q)
    : Decision (accepted mapData cb c) :=
  decide (accepts mapData cb c.1.1 c.1.2 = true).

(** How many cells [_getNeighbours] asks about. *)
Definition askedPerNode (sq dg : bool) : nat :=
  ((if sq then 4 else 0) + (if dg then 4 else 0))%nat.


(** ** The range of the coordinates *)

(** The code computes on doubles, the embedding on integers. They agree on
    the integers that a double holds exactly: below 2^53 in absolute value
    ([Number.isSafeInteger]) the numbers x - 1, x and x + 1 are three
    different numbers. *)
Definition safeInteger (z : Z) : Prop := Z.abs z < 2 ^ 53.

(** With coordinates up to 2^50 in absolute value a difference of two of
    them is at most 2^51, a Manhattan distance at most 2^52 and the sum of
    two distances at most 2^53: the doubles that the code computes, and the
    sums that the triangle inequality compares, are these integers. *)
Definition exactCoordinate (z : Z) : Prop := Z.abs z <= 2 ^ 50.


(** ** The objects of the open list *)

(** The start point as the search holds it, with [link] set to 1. *)
Definition startObject (startPoint : Node) : Node := set_link LinkOne startPoint.

(** The objects that a call can put on its lists: the start object, and
    the object appended for a neighbour of such an object. *)
Inductive Traced {TileData : Type} (mapData : MapData TileData)
    (cb : Callback TileData) (sq dg : bool) (startPoint endPoint : Node)
    : Node → Prop :=
  | traced_start : Traced mapData cb sq dg startPoint endPoint
                          (startObject startPoint)
  | traced_step (p nb : Node) :
      Traced mapData cb sq dg startPoint endPoint p →
      nb ∈ (_getNeighbours p mapData cb sq dg).1 →
      Traced mapData cb sq dg startPoint endPoint (pushedNode endPoint p nb).

(** What holds of the state at the head of every turn of a call. *)
Record Sound {TileData : Type} (mapData : MapData TileData)
    (cb : Callback TileData) (sq dg : bool) (startPoint endPoint : Node)
    (st : State TileData) : Prop := {
  sound_open : Forall (Traced mapData cb sq dg startPoint endPoint)
                      (openList st);
  sound_closed : Forall (Traced mapData cb sq dg startPoint endPoint)
                        (closedList st);
  sound_keys : closedListHash st = list_to_set (node_hash <$> closedList st);
  sound_goal : Forall (λ n, coord n ≠ coord endPoint) (closedList st);
  sound_calls : length (calls st) =
                (1 + askedPerNode sq dg * length (closedList st))%nat;
  sound_size : (length (openList st) < openLimit + askedPerNode sq dg)%nat;
  sound_quiet : emitted st = [] ∧ logged st = []
}.

(** A returned array in which every object but the first is the object
    appended for a neighbour of the object before it. *)
Definition linkedPath {TileData : Type} (mapData : MapData TileData)
    (cb : Callback TileData) (sq dg : bool) (endPoint : Node)
    (path : list Node) : Prop :=
  ∀ i a b, path !! i = Some a → path !! S i = Some b →
    ∃ nb, nb ∈ (_getNeighbours a mapData cb sq dg).1 ∧
          b = pushedNode endPoint a nb.


(** The result of the call [gridCall]. *)
Definition gridResult : Result nat :=
  match gridCall with
  | Some (Return r) => r
  | _ => mkResult [] (mkState [] [] ∅ ∅ [] [] [])
  end.


(** * Properties *)

(** ** Comparison of priorities *)

Lemma js_lt_spec (a b : option Q) :
  js_lt a b = true ↔ ∃ p q, a = Some p ∧ b = Some q ∧ (p < q)%Q.
Proof.
  unfold js_lt. destruct a as [p|], b as [q|]; split;
    try discriminate; try (intros (? & ? & ? & ? & _); discriminate).
  - intros H. exists p, q. repeat split.
    apply negb_true_iff in H. apply Qnot_le_lt. intros Hle.
    apply Qle_bool_iff in Hle. congruence.
  - intros (p' & q' & [= <-] & [= <-] & Hlt).
    apply negb_true_iff. destruct (Qle_bool q p) eqn:E; [|done].
    apply Qle_bool_iff in E. exfalso. eapply Qlt_not_le; eauto.
Qed.

Lemma js_lt_false_spec (p q : Q) :
  js_lt (Some p) (Some q) = false ↔ (q <= p)%Q.
Proof.
  unfold js_lt. rewrite negb_false_iff. apply Qle_bool_iff.
Qed.

Lemma js_lt_trans (a b c : option Q) :
  js_lt a b = true → js_lt b c = true → js_lt a c = true.
Proof.
  rewrite !js_lt_spec. intros (p & q & -> & -> & H1) (q' & r & [= <-] & -> & H2).
  exists p, r. repeat split. eapply Qlt_trans; eauto.
Qed.

(** A candidate that is replaced by a smaller one: what was not below the
    old candidate is not below the new one. *)
Lemma js_lt_replace (j k c : option Q) :
  js_lt k c = true → js_lt j c = false → js_lt j k = false.
Proof.
  intros Hkc Hjc. apply js_lt_spec in Hkc as (p & q & -> & -> & Hpq).
  destruct j as [r|]; [|done].
  apply js_lt_false_spec in Hjc. apply js_lt_false_spec.
  apply Qlt_le_weak. eapply Qlt_le_trans; eauto.
Qed.

Lemma js_eq_not_lt (a b : option Q) : js_eq a b → js_lt a b = false.
Proof.
  intros (p & q & -> & -> & E). apply js_lt_false_spec. rewrite E. apply Qle_refl.
Qed.

Lemma js_eq_lt (j k c : option Q) :
  js_eq j k → js_lt k c = true → js_lt j c = true.
Proof.
  intros (p & q & -> & -> & E). rewrite !js_lt_spec.
  intros (q' & r & [= <-] & -> & Hlt). exists p, r. repeat split. by rewrite E.
Qed.

Lemma js_eq_sym (a b : option Q) : js_eq a b → js_eq b a.
Proof. intros (p & q & -> & -> & E). exists q, p. repeat split. by symmetry. Qed.

(** ** The scan for the lowest priority *)


Lemma lowestScan_step (l : list Node) (k c : nat) :
  lowestScan l (S k) c =
  lowestScan l k (if js_lt (prio l k) (prio l c) then k else c).
Proof.
  simpl. unfold prio, js_lt.
  destruct (l !! k) as [a|], (l !! c) as [b|]; try done.
  by destruct (node_h a).
Qed.


Lemma prio_past_end (l : list Node) (j : nat) :
  (length l ≤ j)%nat → prio l j = None.
Proof. intros H. unfold prio. by rewrite lookup_ge_None_2. Qed.

Lemma ScanInv_start (l : list Node) : l ≠ [] → ScanInv l (length l) 0.
Proof.
  intros Hne. split.
  - destruct l; [done | simpl; lia].
  - by left.
  - done.
  - intros j Hj. rewrite (prio_past_end l j Hj). done.
  - intros j Hj (p & q & E & _). rewrite (prio_past_end l j Hj) in E. done.
Qed.

Lemma ScanInv_step (l : list Node) (k c : nat) :
  (k < length l)%nat →
  ScanInv l (S k) c →
  ScanInv l k (if js_lt (prio l k) (prio l c) then k else c).
Proof.
  intros Hk [Hr Hp Hf Hl Ht]. destruct (js_lt (prio l k) (prio l c)) eqn:E.
  - split.
    + done.
    + by right.
    + intros Hk0. destruct (decide (c = 0%nat)) as [->|Hc]; [done|].
      eapply js_lt_trans; eauto.
    + intros j Hj. destruct (decide (j = k)) as [->|Hjk].
      * apply js_eq_not_lt. apply js_lt_spec in E as (p & q & Ep & _).
        exists p, p. by rewrite Ep.
      * eapply js_lt_replace; eauto. apply Hl. lia.
    + intros j Hj Heq. destruct (decide (j = k)) as [->|Hjk]; [by right|].
      exfalso. assert (js_lt (prio l j) (prio l c) = true) as Hlt
        by (eapply js_eq_lt; eauto).
      rewrite Hl in Hlt; [done | lia].
  - split.
    + done.
    + destruct Hp; [by left | right; lia].
    + done.
    + intros j Hj. destruct (decide (j = k)) as [->|Hjk]; [done|].
      apply Hl. lia.
    + intros j Hj Heq. destruct (decide (j = k)) as [->|Hjk].
      * destruct Hp; [by left | right; lia].
      * apply Ht; [lia | done].
Qed.

Lemma lowestScan_inv (l : list Node) (k c : nat) :
  (k ≤ length l)%nat → ScanInv l k c → ScanInv l 0 (lowestScan l k c).
Proof.
  revert c. induction k as [|k IH]; intros c Hk Hinv; [done|].
  rewrite lowestScan_step. apply IH; [lia|]. apply ScanInv_step; [lia | done].
Qed.

Lemma lowestIndex_inv (l : list Node) : l ≠ [] → ScanInv l 0 (lowestIndex l).
Proof.
  intros Hne. unfold lowestIndex. apply lowestScan_inv; [done|].
  by apply ScanInv_start.
Qed.

Lemma lowestIndex_lookup (l : list Node) :
  l ≠ [] → ∃ currentNode, l !! lowestIndex l = Some currentNode.
Proof.
  intros Hne. apply lookup_lt_is_Some_2. apply (lowestIndex_inv l Hne).
Qed.

(** ** What a turn of the loop changes *)

Section Turn.

Context {TileData : Type}.
Implicit Types (st : State TileData) (mapData : MapData TileData)
  (cb : Callback TileData).


Lemma visitNeighbour_cases endPoint currentNode st nb :
  let st' := (visitNeighbour endPoint currentNode st nb).1 in
  st' = st ∨
  ((node_hash nb ∉ closedListHash st) ∧ (node_hash nb ∉ openListHash st) ∧
   st' = set_openList (openList st ++ [pushedNode endPoint currentNode nb]) st).
Proof.
  unfold visitNeighbour. destruct nb as [x y s h k l]. simpl.
  destruct (decide (k ∈ closedListHash st)); [by left|].
  destruct (decide (k ∈ openListHash st)).
  - left. by destruct (js_lt _ _).
  - right. repeat split; done.
Qed.

Lemma visitNeighbour_closed endPoint currentNode st nb :
  node_hash nb ∈ closedListHash st →
  (visitNeighbour endPoint currentNode st nb).1 = st.
Proof. intros Hc. unfold visitNeighbour. by rewrite decide_True. Qed.

Lemma visitNeighbour_push endPoint currentNode st nb :
  node_hash nb ∉ closedListHash st → node_hash nb ∉ openListHash st →
  (visitNeighbour endPoint currentNode st nb).1 =
  set_openList (openList st ++ [pushedNode endPoint currentNode nb]) st.
Proof.
  intros Hc Ho. unfold visitNeighbour. rewrite !decide_False by done.
  by destruct nb.
Qed.

Lemma elem_of_middle {A} (a n : A) (l seen : list A) :
  a ∈ (n :: l) ++ seen ↔ a ∈ l ++ n :: seen.
Proof. rewrite !elem_of_app, !elem_of_cons. tauto. Qed.

(** The neighbours that a visit appends to the open list. *)
Lemma visitNeighbours_appends endPoint currentNode st neighbourList :
  ∃ pushed,
    visitNeighbours endPoint currentNode st neighbourList =
      set_openList (openList st ++ pushed) st ∧
    Forall (λ p, ∃ nb, nb ∈ neighbourList ∧
                 p = pushedNode endPoint currentNode nb ∧
                 (node_hash nb ∉ closedListHash st) ∧
                 (node_hash nb ∉ openListHash st)) pushed.
Proof.
  unfold visitNeighbours.
  assert (∀ l st0 pushed0,
    Forall (λ p, ∃ nb, nb ∈ l ++ pushed0.2 ∧
                 p = pushedNode endPoint currentNode nb ∧
                 (node_hash nb ∉ closedListHash st) ∧
                 (node_hash nb ∉ openListHash st)) pushed0.1 →
    st0 = set_openList (openList st ++ pushed0.1) st →
    ∃ pushed,
      foldl (λ s nb, (visitNeighbour endPoint currentNode s nb).1) st0 l =
        set_openList (openList st ++ pushed) st ∧
      Forall (λ p, ∃ nb, nb ∈ l ++ pushed0.2 ∧
                 p = pushedNode endPoint currentNode nb ∧
                 (node_hash nb ∉ closedListHash st) ∧
                 (node_hash nb ∉ openListHash st)) pushed) as Hgen.
  { induction l as [|nb l IH]; intros st0 [pushed0 seen] Hall ->; simpl in *.
    - eauto.
    - destruct (visitNeighbour_cases endPoint currentNode
                  (set_openList (openList st ++ pushed0) st) nb)
        as [-> | (Hc & Ho & ->)].
      + destruct (IH (set_openList (openList st ++ pushed0) st)
                     (pushed0, nb :: seen)) as (pushed & E & Hp); simpl.
        * eapply Forall_impl; [exact Hall|]. intros p (n & Hn & Hrest).
          exists n. split; [|done]. by apply elem_of_middle.
        * done.
        * exists pushed. split; [done|].
          eapply Forall_impl; [exact Hp|]. intros p (n & Hn & Hrest).
          exists n. split; [|done]. by apply elem_of_middle.
      + destruct (IH (set_openList
                        (openList st ++ pushed0 ++
                           [pushedNode endPoint currentNode nb]) st)
                     (pushed0 ++ [pushedNode endPoint currentNode nb],
                      nb :: seen)) as (pushed & E & Hp); simpl.
        * apply Forall_app. split.
          -- eapply Forall_impl; [exact Hall|]. intros p (n & Hn & Hrest).
             exists n. split; [|done]. by apply elem_of_middle.
          -- apply Forall_singleton. exists nb. split; [|done].
             rewrite elem_of_app, elem_of_cons. auto.
        * done.
        * exists pushed. split.
          -- rewrite <- E. f_equal. unfold set_openList. simpl.
             by rewrite <- app_assoc.
          -- eapply Forall_impl; [exact Hp|]. intros p (n & Hn & Hrest).
             exists n. split; [|done]. by apply elem_of_middle. }
  destruct (Hgen (rev neighbourList) st ([], [])) as (pushed & E & Hp).
  - constructor.
  - unfold set_openList. destruct st. simpl. by rewrite app_nil_r.
  - exists pushed. split; [done|].
    eapply Forall_impl; [exact Hp|]. intros p (n & Hn & Hrest).
    exists n. split; [|done]. simpl in Hn. rewrite app_nil_r in Hn.
    apply list_elem_of_In, in_rev. by apply list_elem_of_In.
Qed.

Lemma expand_spec mapData cb endPoint sq dg lowInd currentNode st :
  let nbs := _getNeighbours currentNode mapData cb sq dg in
  ∃ pushed,
    expand mapData cb endPoint sq dg lowInd currentNode st =
      mkState (delete lowInd (openList st) ++ pushed)
              (closedList st ++ [currentNode])
              (openListHash st ∖ {[node_hash currentNode]})
              ({[node_hash currentNode]} ∪ closedListHash st)
              (emitted st) (logged st) (calls st ++ nbs.2) ∧
    Forall (λ p, ∃ nb, nb ∈ nbs.1 ∧
                 p = pushedNode endPoint currentNode nb ∧
                 (node_hash nb ∉ {[node_hash currentNode]} ∪ closedListHash st) ∧
                 (node_hash nb ∉ openListHash st ∖ {[node_hash currentNode]}))
           pushed.
Proof.
  intros nbs. unfold expand. fold nbs.
  match goal with |- context [visitNeighbours ?e ?c ?s ?l] =>
    destruct (visitNeighbours_appends e c s l) as (pushed & E & Hp) end.
  exists pushed. split; [by rewrite E | exact Hp].
Qed.

(** The four ways a turn can go. *)
Lemma iteration_cases mapData cb endPoint sq dg st :
  (openList st = [] ∧
   iteration mapData cb endPoint sq dg st = Done (afterLoop st)) ∨
  ((999 < length (openList st))%nat ∧
   iteration mapData cb endPoint sq dg st =
     Done (afterLoop (emit exceededLimit (log log_exceeded st)))) ∨
  (∃ currentNode,
     openList st ≠ [] ∧ (length (openList st) ≤ 999)%nat ∧
     openList st !! lowestIndex (openList st) = Some currentNode ∧
     ((coord currentNode = coord endPoint ∧
       iteration mapData cb endPoint sq dg st =
         Done (Return (mkResult (rev (finalPath currentNode))
                 (emit (pathFound (finalPath currentNode)) st)))) ∨
      (coord currentNode ≠ coord endPoint ∧
       iteration mapData cb endPoint sq dg st =
         Continue (expand mapData cb endPoint sq dg
                     (lowestIndex (openList st)) currentNode st)))).
Proof.
  unfold iteration.
  destruct (length (openList st) =? 0)%nat eqn:E0.
  { left. apply Nat.eqb_eq in E0. split; [|done]. by apply length_zero_iff_nil. }
  apply Nat.eqb_neq in E0.
  destruct (999 <? length (openList st))%nat eqn:E1.
  { right; left. apply Nat.ltb_lt in E1. done. }
  apply Nat.ltb_ge in E1. right; right.
  assert (openList st ≠ []) as Hne by (intros E; rewrite E in E0; done).
  destruct (lowestIndex_lookup (openList st) Hne) as [currentNode Hcur].
  exists currentNode. rewrite Hcur. repeat split; try done.
  unfold coord.
  destruct (Z.eqb_spec (node_x currentNode) (node_x endPoint)) as [Ex|Ex];
    destruct (Z.eqb_spec (node_y currentNode) (node_y endPoint)) as [Ey|Ey];
    simpl.
  - left. split; [congruence | done].
  - right. split; [by intros [= _ ?] | done].
  - right. split; [by intros [= ? _] | done].
  - right. split; [by intros [= ? _] | done].
Qed.

(** A turn that goes on neither emits nor logs. *)
Lemma iteration_continue_quiet mapData cb endPoint sq dg st st' :
  iteration mapData cb endPoint sq dg st = Continue st' →
  emitted st' = emitted st ∧ logged st' = logged st.
Proof.
  intros Hit.
  destruct (iteration_cases mapData cb endPoint sq dg st)
    as [[_ E] | [[_ E] | (cur & _ & _ & _ & [[_ E] | [_ E]])]];
    rewrite E in Hit; try discriminate.
  injection Hit as <-.
  destruct (expand_spec mapData cb endPoint sq dg
              (lowestIndex (openList st)) cur st) as (pushed & -> & _).
  done.
Qed.

End Turn.

(** ** The outcome of a call *)

Section Outcome.

Context {TileData : Type}.
Implicit Types (st : State TileData) (mapData : MapData TileData)
  (cb : Callback TileData) (r : Result TileData).

Lemma iteration_done mapData cb endPoint sq dg st c :
  iteration mapData cb endPoint sq dg st = Done c →
  ∃ r, c = Return r ∧ LoopOutcome endPoint st r.
Proof.
  intros Hit.
  destruct (iteration_cases mapData cb endPoint sq dg st)
    as [[Ho E] | [[Hlen E] | (cur & _ & _ & Hcur & [[Hc E] | [_ E]])]];
    rewrite E in Hit; try discriminate; injection Hit as <-;
    eexists; (split; [reflexivity|]).
  - right; left. simpl. done.
  - right; right. simpl. rewrite <- !app_assoc. done.
  - left. exists cur. simpl. done.
Qed.


(** A visit leaves the objects of the open list as they are, at their
    indices. *)
Lemma visitNeighbours_keeps_stored (endPoint currentNode : Node) st
    (neighbourList : list Node) (i : nat) (n : Node) :
  openList st !! i = Some n →
  openList (visitNeighbours endPoint currentNode st neighbourList) !! i
    = Some n.
Proof.
  intros Hi.
  destruct (visitNeighbours_appends endPoint currentNode st neighbourList)
    as (pushed & -> & _).
  simpl. by apply lookup_app_l_Some.
Qed.

Lemma lowestIndex_singleton (n : Node) : lowestIndex [n] = 0%nat.
Proof.
  pose proof (lowestIndex_inv [n]) as H.
  destruct H as [Hr _ _ _ _]; [done|]. simpl in Hr. lia.
Qed.

(** After a turn that expands a node no key is left in [openListHash]: the
    key of a pushed node is never written to it. *)
Lemma iteration_clears_hash mapData cb (endPoint : Node) (sq dg : bool) st st' :
  HashInv st →
  iteration mapData cb endPoint sq dg st = Continue st' →
  openListHash st' = ∅.
Proof.
  intros Hinv Hit.
  destruct (iteration_cases mapData cb endPoint sq dg st)
    as [[_ E] | [[_ E] | (cur & _ & _ & Hcur & [[_ E] | [_ E]])]];
    rewrite E in Hit; try discriminate.
  injection Hit as <-.
  destruct (expand_spec mapData cb endPoint sq dg
              (lowestIndex (openList st)) cur st) as (pushed & -> & _).
  simpl. destruct Hinv as [-> | (s & Hopen & ->)]; [set_solver|].
  rewrite Hopen, lowestIndex_singleton in Hcur.
  injection Hcur as ->. set_solver.
Qed.

Lemma turns_clear_hash (n : nat) mapData cb (endPoint : Node) (sq dg : bool) :
  ∀ st st', HashInv st →
    turns (S n) mapData cb endPoint sq dg st = Some st' →
    openListHash st' = ∅.
Proof.
  induction n as [|n IH]; intros st st' Hinv Hturns; simpl in Hturns;
    destruct (iteration mapData cb endPoint sq dg st) as [s1|c] eqn:Hit;
    try discriminate.
  - injection Hturns as <-. by eapply iteration_clears_hash.
  - apply (IH s1 st'); [|exact Hturns].
    left. by eapply iteration_clears_hash.
Qed.

(** In every call, from the second turn on, the neighbours are visited with
    no key in [openListHash]: none is taken for a node of the open list. *)
Lemma headOfTurn_hash_empty (n : nat) mapData (startPoint endPoint : Node) cb
    (allowSquare allowDiagonal : option bool) st :
  headOfTurn (S n) mapData startPoint endPoint cb allowSquare allowDiagonal
    = Some st →
  openListHash st = ∅.
Proof.
  unfold headOfTurn. destruct (negb _); [done|].
  apply turns_clear_hash. right. eexists. split; reflexivity.
Qed.

End Outcome.

(** ** The claims on notifications, the destination gate and selection *)

Section Claims.

Context {TileData : Type}.
Implicit Types (st : State TileData) (mapData : MapData TileData)
  (cb : Callback TileData) (r : Result TileData).


(** C6: when the callback rejects the tile at the end point, the call
    returns an empty array whatever the bound on the turns, with nothing on
    the open list and nothing on the closed list, and the callback has been
    invoked once, on the end point. *)
Theorem aStar_destination_gate fuel mapData startPoint endPoint cb
    allowSquare allowDiagonal :
  cb (tileAt mapData (node_x endPoint) (node_y endPoint))
     (node_x endPoint) (node_y endPoint) = false →
  ∃ r,
    aStar fuel mapData startPoint endPoint cb allowSquare allowDiagonal
      = Some (Return r) ∧
    returned r = [] ∧
    openList (final r) = [] ∧ closedList (final r) = [] ∧
    calls (final r) =
      [(tileAt mapData (node_x endPoint) (node_y endPoint),
        node_x endPoint, node_y endPoint)] ∧
    length (calls (final r)) = 1%nat.
Proof.
  intros Hgate. unfold aStar. rewrite Hgate. simpl.
  eexists. split; [reflexivity|]. done.
Qed.

(** C5: on a turn that expands a node, the node moved to the closed list is
    the one at [lowestIndex]; no node of the open list has a priority below
    its priority; and when several nodes share that priority, the node at
    index 0 wins if it is one of them, otherwise the one at the highest
    index: every node that shares the priority sits at an index from 1 to
    [lowestIndex] unless [lowestIndex] is 0. The earliest position does not
    win in general. *)
Theorem iteration_selects_minimal mapData cb endPoint sq dg st st' :
  iteration mapData cb endPoint sq dg st = Continue st' →
  ∃ currentNode,
    openList st !! lowestIndex (openList st) = Some currentNode ∧
    closedList st' = closedList st ++ [currentNode] ∧
    (∀ j n, openList st !! j = Some n →
       js_lt (node_h n) (node_h currentNode) = false) ∧
    (∀ j n p q, openList st !! j = Some n →
       node_h n = Some q → node_h currentNode = Some p → (p <= q)%Q) ∧
    (∀ j n, openList st !! j = Some n →
       js_eq (node_h n) (node_h currentNode) →
       lowestIndex (openList st) = 0%nat ∨
       (0 < j ≤ lowestIndex (openList st))%nat).
Proof.
  intros Hit.
  destruct (iteration_cases mapData cb endPoint sq dg st)
    as [[_ E] | [[_ E] | (cur & Hne & _ & Hcur & [[_ E] | [_ E]])]];
    rewrite E in Hit; try discriminate.
  injection Hit as <-.
  destruct (expand_spec mapData cb endPoint sq dg
              (lowestIndex (openList st)) cur st) as (pushed & -> & _).
  destruct (lowestIndex_inv (openList st) Hne) as [Hr Hp Hf Hl Ht].
  assert (prio (openList st) (lowestIndex (openList st)) = node_h cur) as Hpc
    by (unfold prio; by rewrite Hcur).
  assert (∀ j n, openList st !! j = Some n → prio (openList st) j = node_h n)
    as Hpj by (intros j n Hj; unfold prio; by rewrite Hj).
  exists cur. repeat split; try done.
  - intros j n Hj. rewrite <- (Hpj j n Hj), <- Hpc. apply Hl. lia.
  - intros j n p q Hj Hq Hp'. apply js_lt_false_spec.
    rewrite <- Hq, <- Hp', <- (Hpj j n Hj), <- Hpc. apply Hl. lia.
  - intros j n Hj Heq. rewrite <- (Hpj j n Hj), <- Hpc in Heq.
    destruct (Ht j (Nat.le_0_l j) Heq) as [H0 | Hle]; [by left|].
    destruct (decide (lowestIndex (openList st) = 0%nat)) as [H0|Hn0]; [by left|].
    right. split; [|done].
    destruct (decide (j = 0%nat)) as [->|]; [|lia]. exfalso.
    specialize (Hf Hn0). apply js_eq_sym, js_eq_not_lt in Heq. congruence.
Qed.

End Claims.

(** ** Termination *)

Section Termination.

Context {TileData : Type}.
#[local] Opaque openLimit.
Implicit Types (st : State TileData) (mapData : MapData TileData)
  (cb : Callback TileData) (r : Result TileData).

Lemma candidate_Forall (P : Node → Prop) mapData cb newX newY moveCost
    (acc : list Node * list (Call (TileData:=TileData))) :
  P (IgePathNode newX newY moveCost) →
  Forall P acc.1 → Forall P (candidate mapData cb newX newY moveCost acc).1.
Proof.
  intros HP Hacc. unfold candidate. destruct (cb _ _ _); simpl; [|done].
  apply Forall_app. split; [done|]. by apply Forall_singleton.
Qed.

(** The nodes of [_getNeighbours] are path nodes. *)
Lemma getNeighbours_made currentNode mapData cb sq dg :
  Forall (λ nb, ∃ x y moveCost, nb = IgePathNode x y moveCost)
         (_getNeighbours currentNode mapData cb sq dg).1.
Proof.
  unfold _getNeighbours, squareCandidates, diagonalCandidates.
  destruct sq, dg; simpl; repeat (apply candidate_Forall; [by eauto|]);
    constructor.
Qed.

Lemma getNeighbours_coord currentNode mapData cb sq dg :
  _getNeighbours currentNode mapData cb sq dg =
  _getNeighbours (IgePoint (node_x currentNode) (node_y currentNode))
                 mapData cb sq dg.
Proof. reflexivity. Qed.

Lemma filter_delete_length (P : Node → Prop) `{∀ n, Decision (P n)}
    (l : list Node) (i : nat) (n : Node) :
  l !! i = Some n → P n →
  length (filter P l) = S (length (filter P (delete i l))).
Proof.
  intros Hi HP. rewrite delete_take_drop.
  rewrite <- (take_drop_middle l i n Hi) at 1.
  rewrite !filter_app, filter_cons_True by done.
  rewrite !length_app. simpl. lia.
Qed.

Lemma size_keysOf (startPoint : Node) (cells : gset (Z * Z)) :
  (size (keysOf startPoint cells) ≤ size cells + 1)%nat.
Proof.
  unfold keysOf. rewrite size_union_alt, size_singleton.
  assert (size (set_map (D:=gset Key) Some cells ∖ {[node_hash startPoint]})
          ≤ size cells)%nat; [|lia].
  etrans; [apply subseteq_size, subseteq_difference_l; reflexivity|].
  unfold set_map. rewrite size_list_to_set.
  - by rewrite length_fmap.
  - apply NoDup_fmap_2; [apply _ | apply NoDup_elements].
Qed.

Lemma Within_seed (startPoint : Node) (cells : gset (Z * Z))
    (callsSoFar : list (Call (TileData:=TileData))) :
  Within startPoint cells (seed (TileData:=TileData) startPoint callsSoFar).
Proof.
  split; simpl.
  - intros n Hn. apply list_elem_of_singleton in Hn as ->.
    destruct startPoint as [x y s h k l]. unfold keysOf, coord. simpl.
    split; [by left | set_solver].
  - set_solver.
Qed.

Lemma potential_seed (startPoint : Node) (cells : gset (Z * Z))
    (callsSoFar : list (Call (TileData:=TileData))) :
  (potential (keysOf startPoint cells)
             (seed (TileData:=TileData) startPoint callsSoFar)
   ≤ openLimit * (size cells + 1))%nat.
Proof.
  unfold potential, staleNodes. simpl.
  rewrite filter_cons_False, filter_nil by set_solver. simpl.
  pose proof (size_keysOf startPoint cells) as Hk.
  assert (size (keysOf startPoint cells ∖ ∅) ≤ size (keysOf startPoint cells))%nat
    as Hd by (apply subseteq_size, subseteq_difference_l; reflexivity).
  assert (openLimit * size (keysOf startPoint cells ∖ ∅)
          ≤ openLimit * (size cells + 1))%nat
    by (apply Nat.mul_le_mono_l; lia).
  lia.
Qed.

(** An expanding turn keeps the lists within the cells and lowers the
    potential. *)
Lemma iteration_decreases mapData cb (endPoint : Node) (sq dg : bool)
    (startPoint : Node) (cells : gset (Z * Z)) st st' :
  reachWithin mapData cb sq dg startPoint cells →
  Within startPoint cells st →
  iteration mapData cb endPoint sq dg st = Continue st' →
  Within startPoint cells st' ∧
  (potential (keysOf startPoint cells) st'
   < potential (keysOf startPoint cells) st)%nat.
Proof.
  intros Hreach [Hopen Hclosed] Hit.
  destruct (iteration_cases mapData cb endPoint sq dg st)
    as [[_ E] | [[_ E] | (cur & Hne & Hlen & Hcur & [[_ E] | [_ E]])]];
    rewrite E in Hit; try discriminate.
  injection Hit as <-. change 999%nat with openLimit in Hlen.
  destruct (expand_spec mapData cb endPoint sq dg
              (lowestIndex (openList st)) cur st) as (pushed & -> & Hpushed).
  assert (cur ∈ openList st) as Hcurin by (eapply list_elem_of_lookup_2; eauto).
  destruct (Hopen cur Hcurin) as [Hcurc Hcurk].
  assert (Forall (λ p, coord p ∈ cells ∧ node_hash p = Some (coord p) ∧
                       (node_hash p ∉ {[node_hash cur]} ∪ closedListHash st))
                 pushed) as Hp.
  { eapply Forall_impl; [exact Hpushed|]. simpl.
    intros p (nb & Hnb & -> & Hnc & _).
    pose proof (getNeighbours_made cur mapData cb sq dg) as Hmade.
    rewrite Forall_forall in Hmade.
    destruct (Hmade nb Hnb) as (x & y & c & ->).
    split; [|done].
    assert (coord cur ∈ ({[coord startPoint]} ∪ cells : gset (Z * Z)))
      as Hin by set_solver.
    specialize (Hreach (coord cur) Hin). simpl in Hreach.
    rewrite Forall_forall in Hreach. apply (Hreach _ Hnb). }
  split.
  - split; simpl.
    + intros n Hn. apply elem_of_app in Hn as [Hn | Hn].
      * apply Hopen. by eapply list_elem_of_delete_inv.
      * rewrite Forall_forall in Hp. destruct (Hp n Hn) as (Hc & Hk & _).
        split; [by right|]. rewrite Hk. unfold keysOf. set_solver.
    + set_solver.
  - unfold potential, staleNodes. simpl.
    rewrite filter_app.
    assert (filter (λ n, node_hash n ∈ {[node_hash cur]} ∪ closedListHash st)
                   pushed = []) as ->.
    { clear -Hp. induction Hp as [|p l (_ & _ & Hn) _ IH]; [done|].
      by rewrite filter_cons_False. }
    rewrite app_nil_r.
    destruct (decide (node_hash cur ∈ closedListHash st)) as [Hold | Hnew].
    + assert ({[node_hash cur]} ∪ closedListHash st = closedListHash st) as ->
        by set_solver.
      rewrite (filter_delete_length _ (openList st) _ cur Hcur Hold). lia.
    + assert (size (keysOf startPoint cells
                      ∖ ({[node_hash cur]} ∪ closedListHash st))
              < size (keysOf startPoint cells ∖ closedListHash st))%nat
        as Hsize.
      { apply subset_size. set_solver. }
      pose proof (length_filter
        (λ n, node_hash n ∈ {[node_hash cur]} ∪ closedListHash st)
        (delete (lowestIndex (openList st)) (openList st))) as Hf.
      rewrite length_delete in Hf by eauto.
      assert (0 < length (openList st))%nat
        by (destruct (openList st); [done | simpl; lia]).
      apply (Nat.mul_le_mono_l _ _ openLimit) in Hsize.
      rewrite Nat.mul_succ_r in Hsize. lia.
Qed.

Lemma loop_terminates mapData cb (endPoint : Node) (sq dg : bool)
    (startPoint : Node) (cells : gset (Z * Z)) :
  reachWithin mapData cb sq dg startPoint cells →
  ∀ n st,
    Within startPoint cells st →
    (potential (keysOf startPoint cells) st < n)%nat →
    ∃ r, LoopOutcome endPoint st r ∧
         ∀ fuel, (n ≤ fuel)%nat →
           loop fuel mapData cb endPoint sq dg st = Some (Return r).
Proof.
  intros Hreach. induction n as [|n IH]; intros st Hin Hpot; [lia|].
  destruct (iteration mapData cb endPoint sq dg st) as [st'|c] eqn:Hit.
  - destruct (iteration_decreases _ _ _ _ _ _ _ _ _ Hreach Hin Hit)
      as [Hin' Hlt].
    destruct (IH st' Hin') as (r & Hout & Hfuel); [lia|].
    destruct (iteration_continue_quiet _ _ _ _ _ _ _ Hit) as [He Hl].
    exists r. split.
    + unfold LoopOutcome in *. rewrite He, Hl in Hout. exact Hout.
    + intros [|fuel] Hle; [lia|]. simpl. rewrite Hit. apply Hfuel. lia.
  - destruct (iteration_done _ _ _ _ _ _ _ Hit) as (r & -> & Hout).
    exists r. split; [done|].
    intros [|fuel] Hle; [lia|]. simpl. by rewrite Hit.
Qed.

(** C9, as amended: when the cells that can be reached from the start
    point through accepted neighbours lie in a finite set [cells], the call
    ends within [999 * (size cells + 1) + 1] turns of the loop, whatever the
    map, the callback, the end point and the flags: it returns the same array
    for every larger bound, by reaching the end point, by emptying the open
    list or at the cut-off on the size of the open list. *)
Theorem aStar_terminates mapData (startPoint endPoint : Node) cb
    (allowSquare allowDiagonal : option bool) (cells : gset (Z * Z)) :
  reachWithin mapData cb (flag allowSquare true) (flag allowDiagonal false)
              startPoint cells →
  ∃ r,
    (∀ fuel, (999 * (size cells + 1) + 1 ≤ fuel)%nat →
       aStar fuel mapData startPoint endPoint cb allowSquare allowDiagonal
         = Some (Return r)) ∧
    ((∃ goal, coord goal = coord endPoint ∧ returned r = rev (finalPath goal)) ∨
     openList (final r) = [] ∨
     (999 < length (openList (final r)))%nat).
Proof.
  intros Hreach. unfold aStar. change 999%nat with openLimit.
  destruct (cb (tileAt mapData (node_x endPoint) (node_y endPoint))
               (node_x endPoint) (node_y endPoint)) eqn:Hgate; simpl.
  - set (st := seed startPoint
                [(tileAt mapData (node_x endPoint) (node_y endPoint),
                  node_x endPoint, node_y endPoint)]).
    destruct (loop_terminates mapData cb endPoint _ _ startPoint cells Hreach
                (openLimit * (size cells + 1) + 1)%nat st)
      as (r & Hout & Hfuel).
    + apply Within_seed.
    + pose proof (potential_seed startPoint cells
        [(tileAt mapData (node_x endPoint) (node_y endPoint),
          node_x endPoint, node_y endPoint)]) as Hp.
      fold st in Hp. lia.
    + exists r. split; [exact Hfuel|].
      destruct Hout as [(goal & Hg & Hr & _) | [(_ & Ho & _) | (_ & Hl & _)]];
        eauto.
  - eexists. split; [reflexivity|]. right; left. done.
Qed.

End Termination.

(** ** A search that does not end *)

Lemma js_lt_irrefl (a : option Q) : js_lt a a = false.
Proof.
  destruct a as [p|]; [|done]. apply js_lt_false_spec. apply Qle_refl.
Qed.

Lemma tileAt_empty (x y : Z) : tileAt (TileData:=nat) ∅ x y = None.
Proof. unfold tileAt, MapData. by rewrite lookup_empty. Qed.

Lemma corridor_row (t : option nat) (x : Z) : corridor t x 0 = (1 <=? x).
Proof.
  unfold corridor. simpl. by destruct (1 <=? x), (x =? 0).
Qed.

Lemma corridor_beside (t : option nat) (x y : Z) :
  y ≠ 0 → y ≠ 5 → corridor t x y = false.
Proof.
  intros Hy Hy'. unfold corridor.
  destruct (Z.eqb_spec y 0); [done|]. destruct (Z.eqb_spec y 5); [done|].
  by rewrite andb_false_r.
Qed.

(** The neighbours of a cell of the corridor: the cell before it, when
    there is one, and the cell after it. *)
Lemma corridor_neighbours (n : Node) (k : Z) :
  0 ≤ k → node_x n = k → node_y n = 0 →
  (_getNeighbours n ∅ corridor true false).1 =
  (if 2 <=? k then [IgePathNode (k - 1) 0 1%Q] else [])
    ++ [IgePathNode (k + 1) 0 1%Q].
Proof.
  intros Hk Hx Hy. unfold _getNeighbours, squareCandidates, candidate.
  rewrite Hx, Hy, !tileAt_empty. simpl.
  rewrite !corridor_row.
  rewrite (corridor_beside None k (0 - 1)), (corridor_beside None k (0 + 1))
    by lia.
  assert ((1 <=? k + 1) = true) as -> by lia.
  destruct (Z.leb_spec 2 k); destruct (Z.leb_spec 1 (k - 1)); try lia; done.
Qed.

(** A turn from a cell of the corridor goes on, to the next cell. *)
Lemma corridor_turn (k : Z) (st : State nat) :
  AlongCorridor k st →
  ∃ st', iteration ∅ corridor (IgePoint 0 5) true false st = Continue st' ∧
         AlongCorridor (k + 1) st'.
Proof.
  intros [Hk (s & h & key & l & Hopen & Hkey & Hhash) Hclosed Hprev].
  set (cur := mkNode k 0 s h key l) in *.
  assert (lowestIndex (openList st) = 0%nat) as Hlow.
  { rewrite Hopen. unfold lowestIndex. simpl. by rewrite js_lt_irrefl. }
  unfold iteration. rewrite Hlow, Hopen. simpl.
  rewrite andb_false_r.
  eexists. split; [reflexivity|].
  unfold expand. cbv zeta.
  rewrite (corridor_neighbours cur k) by done.
  unfold visitNeighbours. rewrite rev_app_distr.
  cbn [rev app foldl openList closedList openListHash closedListHash
       emitted logged calls].
  rewrite Hopen.
  assert (Some (k + 1, 0) ∉ {[node_hash cur]} ∪ closedListHash st) as Hnext.
  { intros [Hin | Hin]%elem_of_union.
    - apply elem_of_singleton in Hin. simpl in Hin.
      destruct Hkey as [[-> _] | ->]; [done|]. injection Hin. lia.
    - destruct (Hclosed _ Hin) as [? | (j & [= <-] & ?)]; [done | lia]. }
  rewrite visitNeighbour_push; [|exact Hnext|simpl; set_solver].
  assert (AlongCorridor (k + 1)
            (set_openList
               (openList
                  (mkState (delete 0%nat [cur]) (closedList st ++ [cur])
                     (openListHash st ∖ {[node_hash cur]})
                     ({[node_hash cur]} ∪ closedListHash st)
                     (emitted st) (logged st)
                     (calls st ++ (_getNeighbours cur ∅ corridor true false).2))
                ++ [pushedNode (IgePoint 0 5) cur (IgePathNode (k + 1) 0 1%Q)])
               (mkState (delete 0%nat [cur]) (closedList st ++ [cur])
                  (openListHash st ∖ {[node_hash cur]})
                  ({[node_hash cur]} ∪ closedListHash st)
                  (emitted st) (logged st)
                  (calls st ++ (_getNeighbours cur ∅ corridor true false).2))))
    as Hnew.
  { split; simpl.
    - lia.
    - eexists _, _, _, _. split; [reflexivity|]. split; [by right|].
      set_solver.
    - intros k' [Hin | Hin]%elem_of_union.
      + apply elem_of_singleton in Hin as ->.
        destruct Hkey as [[-> _] | ->]; [by left|].
        right. exists k. split; [done|lia].
      + destruct (Hclosed _ Hin) as [? | (j & ? & ?)]; [by left|].
        right. exists j. split; [done|lia].
    - intros H2. destruct Hkey as [[_ ->] | ->]; [lia|].
      apply elem_of_union. left. apply elem_of_singleton.
      f_equal. f_equal. lia. }
  destruct (Z.leb_spec 2 k) as [H2 | H2]; simpl; [|exact Hnew].
  rewrite visitNeighbour_closed; [exact Hnew|].
  simpl. apply elem_of_union. right. by apply Hprev.
Qed.

Lemma corridor_loop (fuel : nat) :
  ∀ k st, AlongCorridor k st →
    loop fuel ∅ corridor (IgePoint 0 5) true false st = None.
Proof.
  induction fuel as [|fuel IH]; intros k st Hst; [done|].
  destruct (corridor_turn k st Hst) as (st' & Hit & Hst').
  simpl. rewrite Hit. by eapply IH.
Qed.

(** C9, counterexample: on the empty map, with the callback [corridor], the
    search from (0, 0) to (0, 5) has not ended after any number of turns:
    it walks along the cells (1, 0), (2, 0), ... with one node on the open
    list. *)
Lemma aStar_corridor_never_ends :
  ¬ ∃ fuel c,
      aStar fuel ∅ (IgePoint 0 0) (IgePoint 0 5) corridor None None = Some c.
Proof.
  intros (fuel & c & Hc). unfold aStar in Hc. simpl in Hc.
  rewrite (corridor_loop fuel 0) in Hc; [done|].
  split; simpl.
  - lia.
  - eexists _, _, _, _. split; [reflexivity|]. split; [by left|]. done.
  - set_solver.
  - lia.
Qed.

(** ** The search on concrete maps *)

(** C1: for a neighbour whose key is in neither hash, the object appended to
    the open list has [h] equal to the Manhattan distance to the end point and
    [link] referring to the node being expanded; its [score] is that same
    distance, whatever movement cost (1 or 1.4) the node was made with. *)
Theorem visitNeighbour_new_node {TileData : Type}
    (endPoint currentNode : Node) (st : State TileData)
    (x y : Z) (moveCost : Q) :
  Some (x, y) ∉ closedListHash st →
  Some (x, y) ∉ openListHash st →
  openList (visitNeighbour endPoint currentNode st
              (IgePathNode x y moveCost)).1 =
  openList st ++
    [mkNode x y
       (Some (_heuristic x y (node_x endPoint) (node_y endPoint)))
       (Some (_heuristic x y (node_x endPoint) (node_y endPoint)))
       (Some (x, y)) (LinkTo currentNode)].
Proof.
  intros Hc Ho. by rewrite visitNeighbour_push.
Qed.

(** On the open grid, the first turn appends the two neighbours of the
    start point; each has [score] 6, its distance to (3, 4), and not the
    movement cost 1 it was made with. *)
Lemma visitNeighbour_new_node_witness :
  view <$> openList (gridTurn 1) =
    [((0, 1), Some 6%Q, Some 6%Q, Some (0, 0));
     ((1, 0), Some 6%Q, Some 6%Q, Some (0, 0))] ∧
  openList (visitNeighbour (IgePoint 3 4) (IgePoint 0 0) startExpanded
              (IgePathNode 0 1 1%Q)).1 =
  openList startExpanded ++
    [mkNode 0 1
       (Some (_heuristic 0 1 (node_x (IgePoint 3 4)) (node_y (IgePoint 3 4))))
       (Some (_heuristic 0 1 (node_x (IgePoint 3 4)) (node_y (IgePoint 3 4))))
       (Some (0, 1)) (LinkTo (IgePoint 0 0))].
Proof.
  split; [vm_compute; reflexivity|].
  apply (visitNeighbour_new_node (IgePoint 3 4) (IgePoint 0 0)
           startExpanded 0 1 1%Q).
  - apply (bool_decide_unpack _). vm_compute. exact I.
  - apply (bool_decide_unpack _). vm_compute. exact I.
Defined.



Lemma aStar_destination_gate_witness :
  isTile (tileAt (openGrid 4 5) (node_x (IgePoint 9 9)) (node_y (IgePoint 9 9)))
         (node_x (IgePoint 9 9)) (node_y (IgePoint 9 9)) = false ∧
  ∃ r,
    aStar 0 (openGrid 4 5) (IgePoint 0 0) (IgePoint 9 9) isTile None None
      = Some (Return r) ∧
    returned r = [] ∧
    openList (final r) = [] ∧ closedList (final r) = [] ∧
    calls (final r) =
      [(tileAt (openGrid 4 5) (node_x (IgePoint 9 9)) (node_y (IgePoint 9 9)),
        node_x (IgePoint 9 9), node_y (IgePoint 9 9))] ∧
    length (calls (final r)) = 1%nat.
Proof.
  split; [vm_compute; reflexivity|].
  apply (aStar_destination_gate 0 (openGrid 4 5) (IgePoint 0 0) (IgePoint 9 9)
           isTile None None).
  vm_compute. reflexivity.
Defined.

(** C5, counterexample: at the head of the fourth turn of the call on the
    open grid the priorities on the open list are 6, 5, 7, 4, 6, 4. The
    smallest one, 4, is at the indices 3 and 5; the turn expands the node at
    index 5, the cell (2, 1), and leaves the one at index 3, the cell (1, 2),
    on the open list. *)
Lemma earliest_minimal_not_selected :
  headOfTurn 3 (openGrid 4 5) (IgePoint 0 0) (IgePoint 3 4) isTile None None
    = Some (gridTurn 3) ∧
  node_h <$> openList (gridTurn 3)
    = [Some 6%Q; Some 5%Q; Some 7%Q; Some 4%Q; Some 6%Q; Some 4%Q] ∧
  coord <$> openList (gridTurn 3)
    = [(1, 0); (0, 2); (0, 0); (1, 2); (1, 0); (2, 1)] ∧
  iteration (openGrid 4 5) isTile (IgePoint 3 4) true false (gridTurn 3)
    = Continue (gridTurn 4) ∧
  coord <$> closedList (gridTurn 4)
    = (coord <$> closedList (gridTurn 3)) ++ [(2, 1)] ∧
  coord <$> openList (gridTurn 4)
    = [(1, 0); (0, 2); (0, 0); (1, 2); (1, 0); (2, 2); (2, 0); (3, 1)].
Proof. vm_compute. repeat split; reflexivity. Qed.

Lemma iteration_selects_minimal_witness :
  iteration (openGrid 4 5) isTile (IgePoint 3 4) true false (gridTurn 3)
    = Continue (gridTurn 4) ∧
  lowestIndex (openList (gridTurn 3)) = 5%nat ∧
  ∃ currentNode,
    openList (gridTurn 3) !! lowestIndex (openList (gridTurn 3))
      = Some currentNode ∧
    closedList (gridTurn 4) = closedList (gridTurn 3) ++ [currentNode] ∧
    (∀ j n, openList (gridTurn 3) !! j = Some n →
       js_lt (node_h n) (node_h currentNode) = false) ∧
    (∀ j n p q, openList (gridTurn 3) !! j = Some n →
       node_h n = Some q → node_h currentNode = Some p → (p <= q)%Q) ∧
    (∀ j n, openList (gridTurn 3) !! j = Some n →
       js_eq (node_h n) (node_h currentNode) →
       lowestIndex (openList (gridTurn 3)) = 0%nat ∨
       (0 < j ≤ lowestIndex (openList (gridTurn 3)))%nat).
Proof.
  split; [vm_compute; reflexivity|]. split; [vm_compute; reflexivity|].
  apply (iteration_selects_minimal (openGrid 4 5) isTile (IgePoint 3 4)
           true false (gridTurn 3) (gridTurn 4)).
  vm_compute. reflexivity.
Defined.

Lemma aStar_terminates_witness :
  reachWithin (openGrid 4 5) isTile (flag None true) (flag None false)
              (IgePoint 0 0) gridCells ∧
  ∃ r,
    (∀ fuel, (999 * (size gridCells + 1) + 1 ≤ fuel)%nat →
       aStar fuel (openGrid 4 5) (IgePoint 0 0) (IgePoint 3 4) isTile None None
         = Some (Return r)) ∧
    ((∃ goal, coord goal = coord (IgePoint 3 4) ∧
              returned r = rev (finalPath goal)) ∨
     openList (final r) = [] ∨
     (999 < length (openList (final r)))%nat).
Proof.
  assert (reachWithin (openGrid 4 5) isTile (flag None true) (flag None false)
                      (IgePoint 0 0) gridCells) as Hreach.
  { apply (bool_decide_unpack _). vm_compute. exact I. }
  split; [exact Hreach|].
  apply (aStar_terminates (openGrid 4 5) (IgePoint 0 0) (IgePoint 3 4) isTile
           None None gridCells Hreach).
Defined.

(** C3: on the open grid, the third turn expands the node of (1, 1), whose
    [score] is 5, and generates the neighbour (1, 0), which is on the open
    list with [score] 6. No key is in [openListHash], so the neighbour is
    taken for a new one: the object at index 0 keeps its [link] to (0, 0),
    and a second object for (1, 0) is appended, with [link] to (1, 1). *)
Theorem open_node_never_updated :
  view <$> openList (gridTurn 2) =
    [((1, 0), Some 6%Q, Some 6%Q, Some (0, 0));
     ((0, 2), Some 5%Q, Some 5%Q, Some (0, 1));
     ((0, 0), Some 7%Q, Some 7%Q, Some (0, 1));
     ((1, 1), Some 5%Q, Some 5%Q, Some (0, 1))] ∧
  elements (openListHash (gridTurn 2)) = [] ∧
  view <$> drop 2 (closedList (gridTurn 3)) =
    [((1, 1), Some 5%Q, Some 5%Q, Some (0, 1))] ∧
  take 3 (openList (gridTurn 3)) = take 3 (openList (gridTurn 2)) ∧
  view <$> drop 3 (openList (gridTurn 3)) =
    [((1, 2), Some 4%Q, Some 4%Q, Some (1, 1));
     ((1, 0), Some 6%Q, Some 6%Q, Some (1, 1));
     ((2, 1), Some 4%Q, Some 4%Q, Some (1, 1))].
Proof. vm_compute. repeat split; reflexivity. Qed.

(** C4: on the open grid, after three turns the open list holds two objects
    for the cell (1, 0), and an object for the cell (0, 0), which the first
    turn has moved to the closed list. *)
Theorem open_list_holds_duplicates :
  coord <$> openList (gridTurn 3) =
    [(1, 0); (0, 2); (0, 0); (1, 2); (1, 0); (2, 1)] ∧
  coord <$> closedList (gridTurn 3) = [(0, 0); (0, 1); (1, 1)] ∧
  elements (closedListHash (gridTurn 1)) = [None].
Proof. vm_compute. repeat split; reflexivity. Qed.

(** C7: on the open grid of 2000 columns and 2 rows, every turn moves one
    node to the closed list and appends two to the open list. After 999 turns
    the open list holds exactly 1000 nodes, and the call ends there: it sends
    [exceededLimit] and [noPathFound] and returns an empty array. *)
Theorem cutoff_at_1000_nodes :
  ending stripCall =
    Some (1000%nat, 999%nat, [exceededLimit; noPathFound], 0%nat).
Proof. vm_compute. reflexivity. Qed.

(** C8: on the open grid, the call from (0, 0) to (3, 4) returns eight
    points, from the start to the end; the [score] of the last one is 0, its
    distance to the end point, and the scores along the array are the
    distances 6, 5, ..., 0, not the costs 1, 2, ..., 7. *)
Theorem grid_path_and_score :
  route gridCall =
    Some [(0, 0); (0, 1); (1, 1); (2, 1); (3, 1); (3, 2); (3, 3); (3, 4)] ∧
  length <$> route gridCall = Some 8%nat ∧
  goalScore gridCall = Some (Some 0%Q) ∧
  scoresOf gridCall =
    [None; Some 6%Q; Some 5%Q; Some 4%Q; Some 3%Q; Some 2%Q; Some 1%Q;
     Some 0%Q].
Proof. vm_compute. repeat split; reflexivity. Qed.

(** The two callbacks of the next example agree on every cell but
    (0, 2). *)
Lemma isTileExceptStart_agrees (tileData : option nat) (x y : Z) :
  (x, y) ≠ (0, 2) → isTileExceptStart tileData x y = isTile tileData x y.
Proof.
  intros Hne. unfold isTileExceptStart.
  destruct (Z.eqb_spec x 0) as [->|]; destruct (Z.eqb_spec y 2) as [->|];
    simpl; try done; by rewrite andb_true_r.
Qed.

(** C10: on the five tiles, with the start point (0, 2) and the end point
    (1, 0), the call returns one route when the callback accepts the tile at
    the start point and another one when it rejects it, the two callbacks
    being equal on every other cell. *)
Theorem start_verdict_changes_route :
  route acceptedStartCall = Some [(0, 2); (0, 1); (1, 1); (1, 0)] ∧
  route rejectedStartCall = Some [(0, 2); (0, 1); (0, 0); (1, 0)].
Proof. vm_compute. repeat split; reflexivity. Qed.

(** ** The verdict at the start point, when the start point has a key *)

Section StartVerdict.

Context {TileData : Type}.
Implicit Types (st : State TileData) (mapData : MapData TileData)
  (cb : Callback TileData).

Variables (cb1 cb2 : Callback TileData) (start : Z * Z).
Hypothesis agree : ∀ t x y, (x, y) ≠ start → cb1 t x y = cb2 t x y.

Lemma candidate_sameBut mapData (newX newY : Z) (moveCost : Q)
    (a b : list Node * list (Call (TileData:=TileData))) :
  sameBut (Some start) a b →
  sameBut (Some start) (candidate mapData cb1 newX newY moveCost a)
                       (candidate mapData cb2 newX newY moveCost b).
Proof.
  intros [Hcalls Hnodes]. unfold candidate.
  destruct (decide ((newX, newY) = start)) as [<- | Hne].
  - assert (∀ l : list Node,
      filter (λ n, node_hash n ≠ Some (newX, newY))
             (l ++ [IgePathNode newX newY moveCost]) =
      filter (λ n, node_hash n ≠ Some (newX, newY)) l) as Hdrop.
    { intros l. rewrite filter_app, filter_cons_False, filter_nil.
      - by rewrite app_nil_r.
      - simpl. by intros H; apply H. }
    destruct (cb1 _ _ _), (cb2 _ _ _); split; simpl;
      rewrite ?Hdrop; congruence.
  - rewrite (agree _ _ _ Hne).
    destruct (cb2 _ _ _); split; simpl; rewrite ?filter_app; congruence.
Qed.

Lemma getNeighbours_sameBut currentNode mapData (sq dg : bool) :
  sameBut (Some start) (_getNeighbours currentNode mapData cb1 sq dg)
                       (_getNeighbours currentNode mapData cb2 sq dg).
Proof.
  unfold _getNeighbours, squareCandidates, diagonalCandidates.
  destruct sq, dg; simpl; repeat apply candidate_sameBut; by split.
Qed.

(** The neighbours whose key is closed do not count in a visit. *)
Lemma visitNeighbours_filter (endPoint currentNode : Node) st (key : Key)
    (l : list Node) :
  key ∈ closedListHash st →
  visitNeighbours endPoint currentNode st l =
  visitNeighbours endPoint currentNode st (filter (λ n, node_hash n ≠ key) l).
Proof.
  intros Hkey. unfold visitNeighbours.
  assert (∀ l' st',
    closedListHash st' = closedListHash st →
    foldl (λ s nb, (visitNeighbour endPoint currentNode s nb).1) st' l' =
    foldl (λ s nb, (visitNeighbour endPoint currentNode s nb).1) st'
          (filter (λ n, node_hash n ≠ key) l')) as Hgen.
  { induction l' as [|nb l' IH]; intros st' Hcl; [done|].
    destruct (decide (node_hash nb = key)) as [Heq | Hne].
    - rewrite filter_cons_False by (by intros H; apply H).
      simpl. rewrite visitNeighbour_closed by (by rewrite Hcl, Heq).
      by apply IH.
    - rewrite filter_cons_True by done. simpl. apply IH.
      destruct (visitNeighbour_cases endPoint currentNode st' nb)
        as [-> | (_ & _ & ->)]; done. }
  assert (filter (λ n, node_hash n ≠ key) (rev l) =
          rev (filter (λ n, node_hash n ≠ key) l)) as <-.
  { induction l as [|n l IH]; [done|]. simpl.
    rewrite filter_app, IH.
    destruct (decide (node_hash n ≠ key)).
    - by rewrite !filter_cons_True by done.
    - rewrite !filter_cons_False by done. by rewrite app_nil_r. }
  by apply Hgen.
Qed.

Lemma iteration_same mapData (endPoint : Node) (sq dg : bool) st :
  startClosed (Some start) st →
  iteration mapData cb1 endPoint sq dg st =
  iteration mapData cb2 endPoint sq dg st.
Proof.
  intros Hst. unfold iteration.
  destruct (length (openList st) =? 0)%nat; [done|].
  destruct (999 <? length (openList st))%nat; [done|].
  destruct (openList st !! lowestIndex (openList st)) as [cur|] eqn:Hcur;
    [|done].
  destruct ((node_x cur =? node_x endPoint) && (node_y cur =? node_y endPoint));
    [done|].
  f_equal. unfold expand. cbv zeta.
  destruct (getNeighbours_sameBut cur mapData sq dg) as [Hcalls Hnodes].
  rewrite Hcalls.
  assert (Some start ∈ {[node_hash cur]} ∪ closedListHash st) as Hkey.
  { destruct Hst as [Hin | Hall]; [set_solver|].
    rewrite Forall_forall in Hall.
    rewrite (Hall cur) by (by eapply list_elem_of_lookup_2). set_solver. }
  rewrite (visitNeighbours_filter endPoint cur _ (Some start)
             (_getNeighbours cur mapData cb1 sq dg).1) by exact Hkey.
  rewrite (visitNeighbours_filter endPoint cur _ (Some start)
             (_getNeighbours cur mapData cb2 sq dg).1) by exact Hkey.
  by rewrite Hnodes.
Qed.

Lemma iteration_startClosed mapData cb (endPoint : Node) (sq dg : bool) st st' :
  startClosed (Some start) st →
  iteration mapData cb endPoint sq dg st = Continue st' →
  startClosed (Some start) st'.
Proof.
  intros Hst Hit.
  destruct (iteration_cases mapData cb endPoint sq dg st)
    as [[_ E] | [[_ E] | (cur & _ & _ & Hcur & [[_ E] | [_ E]])]];
    rewrite E in Hit; try discriminate.
  injection Hit as <-.
  destruct (expand_spec mapData cb endPoint sq dg
              (lowestIndex (openList st)) cur st) as (pushed & -> & _).
  left. simpl. destruct Hst as [Hin | Hall]; [set_solver|].
  rewrite Forall_forall in Hall.
  rewrite (Hall cur) by (by eapply list_elem_of_lookup_2). set_solver.
Qed.

Lemma loop_same (fuel : nat) mapData (endPoint : Node) (sq dg : bool) :
  ∀ st, startClosed (Some start) st →
    loop fuel mapData cb1 endPoint sq dg st =
    loop fuel mapData cb2 endPoint sq dg st.
Proof.
  induction fuel as [|fuel IH]; intros st Hst; [done|]. simpl.
  rewrite <- (iteration_same mapData endPoint sq dg st Hst).
  destruct (iteration mapData cb1 endPoint sq dg st) as [st'|c] eqn:Hit;
    [|done].
  apply IH. by eapply iteration_startClosed.
Qed.

(** When the start point carries the key of its coordinate, as a path node
    does, and is not the end point, two callbacks that differ only at the
    start point give the same completion. *)
Lemma aStar_start_verdict_with_key (fuel : nat) mapData
    (startPoint endPoint : Node) (allowSquare allowDiagonal : option bool) :
  coord startPoint = start →
  node_hash startPoint = Some start →
  coord endPoint ≠ start →
  aStar fuel mapData startPoint endPoint cb1 allowSquare allowDiagonal =
  aStar fuel mapData startPoint endPoint cb2 allowSquare allowDiagonal.
Proof.
  intros Hcoord Hhash Hend. unfold aStar.
  rewrite (agree _ _ _ Hend).
  destruct (cb2 _ _ _); simpl; [|done].
  apply loop_same. right. unfold seed. simpl.
  apply Forall_singleton. by destruct startPoint.
Qed.

End StartVerdict.

(** * Further properties *)

(** ** The heuristic *)

(** X1: on coordinates of at most 2^50 in absolute value, where the
    doubles that the code computes are the integers of the embedding,
    [_heuristic] is a distance on the cells: it is not negative and at most
    2^52, it is 0 between a cell and itself only, it does not depend on the
    order of the two cells, and it obeys the triangle inequality. *)
Theorem heuristic_is_distance (x1 y1 x2 y2 x3 y3 : Z) :
  exactCoordinate x1 → exactCoordinate y1 →
  exactCoordinate x2 → exactCoordinate y2 →
  exactCoordinate x3 → exactCoordinate y3 →
  (0 <= _heuristic x1 y1 x2 y2)%Q ∧
  (_heuristic x1 y1 x2 y2 <= inject_Z (2 ^ 52))%Q ∧
  ((_heuristic x1 y1 x2 y2 == 0)%Q ↔ (x1, y1) = (x2, y2)) ∧
  _heuristic x1 y1 x2 y2 = _heuristic x2 y2 x1 y1 ∧
  (_heuristic x1 y1 x3 y3 <= _heuristic x1 y1 x2 y2 + _heuristic x2 y2 x3 y3)%Q.
Proof.
  unfold exactCoordinate, _heuristic. intros Hx1 Hy1 Hx2 Hy2 Hx3 Hy3.
  repeat split.
  - change 0%Q with (inject_Z 0). rewrite <- Zle_Qle. lia.
  - rewrite <- Zle_Qle. lia.
  - change 0%Q with (inject_Z 0). rewrite inject_Z_injective.
    intros H. f_equal; lia.
  - intros [= -> ->]. change 0%Q with (inject_Z 0).
    rewrite inject_Z_injective. lia.
  - f_equal. lia.
  - rewrite <- inject_Z_plus, <- Zle_Qle. lia.
Qed.

Lemma heuristic_is_distance_witness :
  (exactCoordinate 0 ∧ exactCoordinate 0 ∧ exactCoordinate 3 ∧
   exactCoordinate 4 ∧ exactCoordinate 1 ∧ exactCoordinate 2) ∧
  (0 <= _heuristic 0 0 3 4)%Q ∧
  (_heuristic 0 0 3 4 <= inject_Z (2 ^ 52))%Q ∧
  ((_heuristic 0 0 3 4 == 0)%Q ↔ (0, 0) = (3, 4)) ∧
  _heuristic 0 0 3 4 = _heuristic 3 4 0 0 ∧
  (_heuristic 0 0 1 2 <= _heuristic 0 0 3 4 + _heuristic 3 4 1 2)%Q.
Proof.
  assert (exactCoordinate 0) as H0 by (unfold exactCoordinate; lia).
  assert (exactCoordinate 1) as H1 by (unfold exactCoordinate; lia).
  assert (exactCoordinate 2) as H2 by (unfold exactCoordinate; lia).
  assert (exactCoordinate 3) as H3 by (unfold exactCoordinate; lia).
  assert (exactCoordinate 4) as H4 by (unfold exactCoordinate; lia).
  split; [done|].
  exact (heuristic_is_distance 0 0 3 4 1 2 H0 H0 H3 H4 H1 H2).
Defined.

(** ** Neighbour generation *)

Section Neighbours.

Context {TileData : Type}.
Implicit Types (mapData : MapData TileData) (cb : Callback TileData).

Lemma candidate_cells mapData cb (newX newY : Z) (moveCost : Q)
    (cs : list (Z * Z * Q)) :
  candidate mapData cb newX newY moveCost
    (nodeOf <$> filter (accepted mapData cb) cs, callOf mapData <$> cs) =
  (nodeOf <$> filter (accepted mapData cb) (cs ++ [(newX, newY, moveCost)]),
   callOf mapData <$> (cs ++ [(newX, newY, moveCost)])).
Proof.
  unfold candidate. simpl. rewrite filter_app, !fmap_app. simpl.
  destruct (cb (tileAt mapData newX newY) newX newY) eqn:E.
  - rewrite filter_cons_True by exact E. done.
  - rewrite filter_cons_False, filter_nil, app_nil_r;
      [done | unfold accepted, accepts; simpl; by rewrite E].
Qed.

(** [_getNeighbours] asks the callback about the candidate cells, in the
    order of the source, and keeps the cells it accepts. *)
Lemma getNeighbours_cells (currentNode : Node) mapData cb (sq dg : bool) :
  _getNeighbours currentNode mapData cb sq dg =
  (nodeOf <$> filter (accepted mapData cb)
     (candidateCells sq dg (node_x currentNode) (node_y currentNode)),
   callOf mapData <$>
     candidateCells sq dg (node_x currentNode) (node_y currentNode)).
Proof.
  unfold _getNeighbours, squareCandidates, diagonalCandidates, candidateCells.
  change (@nil Node, @nil (Call (TileData:=TileData))) with
    (nodeOf <$> filter (accepted mapData cb) [],
     callOf mapData <$> @nil (Z * Z * Q)).
  destruct sq, dg; cbv beta iota zeta; rewrite ?candidate_cells; reflexivity.
Qed.

Lemma candidateCells_spec (sq dg : bool) (cx cy x y : Z) (cost : Q) :
  (x, y, cost) ∈ candidateCells sq dg cx cy ↔
  (sq = true ∧ Z.abs (x - cx) + Z.abs (y - cy) = 1 ∧ cost = 1%Q) ∨
  (dg = true ∧ Z.abs (x - cx) = 1 ∧ Z.abs (y - cy) = 1 ∧ cost = (14 # 10)%Q).
Proof.
  unfold candidateCells, squareCells, diagonalCells.
  rewrite elem_of_app. split.
  - intros [Hin | Hin]; [destruct sq | destruct dg];
      try (by apply elem_of_nil in Hin);
      repeat (apply elem_of_cons in Hin as [[= -> -> ->] | Hin]);
      try (by apply elem_of_nil in Hin);
      [left | left | left | left | right | right | right | right];
      repeat split; lia.
  - intros [(-> & Hd & ->) | (-> & Hx & Hy & ->)].
    + left.
      assert ((x = cx - 1 ∧ y = cy) ∨ (x = cx + 1 ∧ y = cy) ∨
              (x = cx ∧ y = cy - 1) ∨ (x = cx ∧ y = cy + 1))
        as [[-> ->] | [[-> ->] | [[-> ->] | [-> ->]]]] by lia;
        rewrite !elem_of_cons; auto 10.
    + right.
      assert ((x = cx - 1 ∧ y = cy - 1) ∨ (x = cx + 1 ∧ y = cy - 1) ∨
              (x = cx - 1 ∧ y = cy + 1) ∨ (x = cx + 1 ∧ y = cy + 1))
        as [[-> ->] | [[-> ->] | [[-> ->] | [-> ->]]]] by lia;
        rewrite !elem_of_cons; auto 10.
Qed.


Lemma getNeighbours_sizes (currentNode : Node) mapData cb (sq dg : bool) :
  (length (_getNeighbours currentNode mapData cb sq dg).1
   ≤ askedPerNode sq dg)%nat ∧
  length (_getNeighbours currentNode mapData cb sq dg).2 = askedPerNode sq dg.
Proof.
  rewrite getNeighbours_cells. simpl. rewrite !length_fmap. split.
  - etrans; [apply length_filter|].
    unfold candidateCells. rewrite length_app. by destruct sq, dg.
  - by destruct sq, dg.
Qed.



Lemma candidateCells_NoDup (sq dg : bool) (cx cy : Z) :
  NoDup ((λ c : Z * Z * Q, c.1) <$> candidateCells sq dg cx cy).
Proof.
  unfold candidateCells, squareCells, diagonalCells.
  destruct sq, dg; simpl; repeat (apply NoDup_cons; split);
    try apply NoDup_nil_2;
    rewrite ?elem_of_cons, ?elem_of_nil;
    intros H; repeat (destruct H as [H | H]); try done;
    injection H; lia.
Qed.

(** X4: around a node whose coordinates are safe integers (below 2^53 in
    absolute value, where x - 1, x and x + 1 are different numbers), the
    nodes that [_getNeighbours] returns are nodes of different cells, none of
    them the cell of the current node, and there are at most 4 of them for
    each flag that is set (none when no flag is set). *)
Theorem getNeighbours_distinct (currentNode : Node) mapData cb (sq dg : bool) :
  safeInteger (node_x currentNode) → safeInteger (node_y currentNode) →
  NoDup (coord <$> (_getNeighbours currentNode mapData cb sq dg).1) ∧
  (coord currentNode
     ∉ coord <$> (_getNeighbours currentNode mapData cb sq dg).1) ∧
  (length (_getNeighbours currentNode mapData cb sq dg).1
   ≤ askedPerNode sq dg)%nat.
Proof.
  intros _ _. rewrite getNeighbours_cells. simpl.
  assert (coord <$> (nodeOf <$> filter (accepted mapData cb)
            (candidateCells sq dg (node_x currentNode) (node_y currentNode))) =
          filter (λ c, accepts mapData cb c.1 c.2 = true)
            ((λ c : Z * Z * Q, c.1) <$>
               candidateCells sq dg (node_x currentNode) (node_y currentNode)))
    as ->.
  { induction (candidateCells sq dg (node_x currentNode) (node_y currentNode))
      as [|[[x y] c] l IH]; [done|]. rewrite (fmap_cons (λ c, c.1)).
    destruct (decide (accepts mapData cb x y = true)) as [Ha | Ha].
    - rewrite (filter_cons_True (accepted mapData cb)) by exact Ha.
      rewrite filter_cons_True by exact Ha.
      rewrite !fmap_cons. f_equal. exact IH.
    - rewrite (filter_cons_False (accepted mapData cb)) by exact Ha.
      rewrite filter_cons_False by exact Ha. exact IH. }
  repeat split.
  - apply NoDup_filter, candidateCells_NoDup.
  - intros Hin. apply list_elem_of_filter in Hin as [_ Hin].
    apply list_elem_of_fmap in Hin as ([[x y] c] & Heq & Hin).
    unfold coord in Heq. simpl in Heq. injection Heq as Hx Hy.
    apply candidateCells_spec in Hin. lia.
  - rewrite length_fmap. etrans; [apply length_filter|].
    unfold candidateCells. rewrite length_app. by destruct sq, dg.
Qed.

End Neighbours.

Lemma getNeighbours_distinct_witness :
  (safeInteger (node_x (IgePoint 1 1)) ∧ safeInteger (node_y (IgePoint 1 1))) ∧
  NoDup (coord <$> (_getNeighbours (IgePoint 1 1) (openGrid 4 5) isTile
                                   true false).1) ∧
  (coord (IgePoint 1 1)
     ∉ coord <$> (_getNeighbours (IgePoint 1 1) (openGrid 4 5) isTile
                                 true false).1) ∧
  (length (_getNeighbours (IgePoint 1 1) (openGrid 4 5) isTile true false).1
   ≤ askedPerNode true false)%nat.
Proof.
  assert (safeInteger (node_x (IgePoint 1 1))) as Hx
    by (unfold safeInteger; simpl; lia).
  assert (safeInteger (node_y (IgePoint 1 1))) as Hy
    by (unfold safeInteger; simpl; lia).
  split; [done|].
  exact (getNeighbours_distinct (IgePoint 1 1) (openGrid 4 5) isTile
           true false Hx Hy).
Defined.

(** ** What holds at the head of every turn *)

Lemma openLimit_above_one : (1 < openLimit)%nat.
Proof. apply Nat.ltb_lt. vm_compute. reflexivity. Qed.

Section Soundness.

Context {TileData : Type}.
#[local] Opaque openLimit.
Implicit Types (st : State TileData) (mapData : MapData TileData)
  (cb : Callback TileData) (r : Result TileData).

Lemma visitNeighbours_length (endPoint currentNode : Node) st
    (neighbourList : list Node) :
  (length (openList (visitNeighbours endPoint currentNode st neighbourList))
   ≤ length (openList st) + length neighbourList)%nat.
Proof.
  unfold visitNeighbours. rewrite <- (length_rev neighbourList).
  generalize (rev neighbourList). clear neighbourList.
  intros l. revert st. induction l as [|nb l IH]; intros st; simpl; [lia|].
  etrans; [apply IH|].
  destruct (visitNeighbour_cases endPoint currentNode st nb)
    as [-> | (_ & _ & ->)]; simpl; rewrite ?length_app; simpl; lia.
Qed.

Lemma expand_length mapData cb (endPoint : Node) (sq dg : bool)
    (lowInd : nat) (currentNode : Node) st :
  (length (openList (expand mapData cb endPoint sq dg lowInd currentNode st))
   ≤ length (delete lowInd (openList st))
     + length (_getNeighbours currentNode mapData cb sq dg).1)%nat.
Proof. unfold expand. cbv zeta. apply visitNeighbours_length. Qed.


Lemma Sound_seed mapData cb (sq dg : bool) (startPoint endPoint : Node)
    (gate : Call (TileData:=TileData)) :
  Sound mapData cb sq dg startPoint endPoint (seed startPoint [gate]).
Proof.
  pose proof openLimit_above_one.
  split; simpl;
    [apply Forall_singleton, traced_start | constructor | done | constructor
    | lia | lia | done].
Qed.

Lemma Sound_step mapData cb (sq dg : bool) (startPoint endPoint : Node) st st' :
  Sound mapData cb sq dg startPoint endPoint st →
  iteration mapData cb endPoint sq dg st = Continue st' →
  Sound mapData cb sq dg startPoint endPoint st'.
Proof.
  intros [Hopen Hclosed Hkeys Hgoal Hcalls Hsize Hquiet] Hit.
  destruct (iteration_continue_quiet _ _ _ _ _ _ _ Hit) as [He Hl].
  destruct (iteration_cases mapData cb endPoint sq dg st)
    as [[_ E] | [[_ E] | (cur & Hne & Hlen & Hcur & [[_ E] | [Hnot E]])]];
    rewrite E in Hit; try discriminate.
  injection Hit as <-. change 999%nat with openLimit in Hlen.
  assert (cur ∈ openList st) as Hcurin by (by eapply list_elem_of_lookup_2).
  assert (Traced mapData cb sq dg startPoint endPoint cur) as Hcurt
    by (rewrite Forall_forall in Hopen; by apply Hopen).
  pose proof (expand_length mapData cb endPoint sq dg
                (lowestIndex (openList st)) cur st) as Hvlen.
  pose proof (getNeighbours_sizes cur mapData cb sq dg) as [Hnblen Hasked].
  destruct (expand_spec mapData cb endPoint sq dg
              (lowestIndex (openList st)) cur st) as (pushed & Hexp & Hpushed).
  rewrite Hexp in Hvlen |- *. simpl in Hvlen.
  split; simpl.
  - apply Forall_app. split.
    + rewrite Forall_forall in Hopen |- *. intros n Hn. apply Hopen.
      by eapply list_elem_of_delete_inv.
    + eapply Forall_impl; [exact Hpushed|]. simpl.
      intros p (nb & Hnb & -> & _). by apply traced_step.
  - apply Forall_app. split; [done | by apply Forall_singleton].
  - rewrite Hkeys, fmap_app, list_to_set_app_L. simpl. set_solver.
  - apply Forall_app. split; [done | by apply Forall_singleton].
  - rewrite !length_app, Hcalls, Hasked. simpl.
    rewrite Nat.mul_add_distr_l, Nat.mul_1_r. lia.
  - rewrite length_delete in Hvlen by eauto.
    assert (0 < length (openList st))%nat
      by (destruct (openList st); [done | simpl; lia]).
    lia.
  - done.
Qed.

Lemma loop_Sound (fuel : nat) mapData cb (sq dg : bool)
    (startPoint endPoint : Node) :
  ∀ st c,
    Sound mapData cb sq dg startPoint endPoint st →
    loop fuel mapData cb endPoint sq dg st = Some c →
    ∃ st', Sound mapData cb sq dg startPoint endPoint st' ∧
           iteration mapData cb endPoint sq dg st' = Done c.
Proof.
  induction fuel as [|fuel IH]; intros st c Hst Hloop; [done|].
  simpl in Hloop.
  destruct (iteration mapData cb endPoint sq dg st) as [st1|c1] eqn:Hit.
  - apply (IH st1); [by eapply Sound_step | done].
  - injection Hloop as <-. by exists st.
Qed.

Lemma turns_Sound (n : nat) mapData cb (sq dg : bool)
    (startPoint endPoint : Node) :
  ∀ st st',
    Sound mapData cb sq dg startPoint endPoint st →
    turns n mapData cb endPoint sq dg st = Some st' →
    Sound mapData cb sq dg startPoint endPoint st'.
Proof.
  induction n as [|n IH]; intros st st' Hst Hturns; simpl in Hturns.
  - by injection Hturns as <-.
  - destruct (iteration mapData cb endPoint sq dg st) as [st1|c1] eqn:Hit;
      [|done].
    apply (IH st1); [by eapply Sound_step | done].
Qed.

(** The chain of a traced object, reversed: it starts with the start
    object, ends with the object, and links each object to the one before
    it. *)
Lemma traced_path mapData cb (sq dg : bool) (startPoint endPoint n : Node) :
  Traced mapData cb sq dg startPoint endPoint n →
  head (rev (finalPath n)) = Some (startObject startPoint) ∧
  last (rev (finalPath n)) = Some n ∧
  linkedPath mapData cb sq dg endPoint (rev (finalPath n)).
Proof.
  induction 1 as [|p nb Hp (Hhead & Hlast & Hlinked) Hnb].
  - assert (finalPath (startObject startPoint) = [startObject startPoint])
      as -> by (by destruct startPoint).
    simpl. repeat split. intros i a b Ha Hb.
    destruct i; simpl in Hb; done.
  - assert (finalPath (pushedNode endPoint p nb) =
            pushedNode endPoint p nb :: finalPath p) as -> by done.
    simpl. repeat split.
    + destruct (rev (finalPath p)) as [|a l]; [done | exact Hhead].
    + apply last_snoc.
    + intros i a b Ha Hb.
      destruct (decide (S i < length (rev (finalPath p)))%nat) as [Hlt | Hge].
      * rewrite lookup_app_l in Ha by lia. rewrite lookup_app_l in Hb by lia.
        by eapply Hlinked.
      * assert (S i = length (rev (finalPath p))) as Hi.
        { apply lookup_lt_Some in Hb. rewrite length_app in Hb.
          simpl in Hb. lia. }
        rewrite lookup_app_r in Hb by lia. rewrite Hi, Nat.sub_diag in Hb.
        injection Hb as <-.
        rewrite lookup_app_l in Ha by lia.
        rewrite last_lookup, <- Hi in Hlast. simpl in Hlast.
        rewrite Ha in Hlast. injection Hlast as ->.
        by exists nb.
Qed.

(** A call that gets past the gate ends at the head of a turn of which
    [Sound] holds. *)
Lemma aStar_ends_sound (fuel : nat) mapData (startPoint endPoint : Node) cb
    (allowSquare allowDiagonal : option bool) (c : Completion TileData) :
  aStar fuel mapData startPoint endPoint cb allowSquare allowDiagonal = Some c →
  accepts mapData cb (node_x endPoint) (node_y endPoint) = true →
  ∃ st, Sound mapData cb (flag allowSquare true) (flag allowDiagonal false)
              startPoint endPoint st ∧
        iteration mapData cb endPoint (flag allowSquare true)
                  (flag allowDiagonal false) st = Done c.
Proof.
  unfold aStar, accepts. intros Hrun Hgate. rewrite Hgate in Hrun.
  simpl in Hrun. eapply loop_Sound; [|exact Hrun]. apply Sound_seed.
Qed.

Lemma headOfTurn_sound (n : nat) mapData (startPoint endPoint : Node) cb
    (allowSquare allowDiagonal : option bool) st :
  headOfTurn n mapData startPoint endPoint cb allowSquare allowDiagonal
    = Some st →
  Sound mapData cb (flag allowSquare true) (flag allowDiagonal false)
        startPoint endPoint st.
Proof.
  unfold headOfTurn. destruct (negb _); [done|].
  apply turns_Sound, Sound_seed.
Qed.

(** The three ways a call that gets past the gate can end, with what
    [Sound] gives of the state it ends in. *)
Lemma aStar_ends_cases (fuel : nat) mapData (startPoint endPoint : Node) cb
    (allowSquare allowDiagonal : option bool) r :
  aStar fuel mapData startPoint endPoint cb allowSquare allowDiagonal
    = Some (Return r) →
  accepts mapData cb (node_x endPoint) (node_y endPoint) = true →
  ∃ st, Sound mapData cb (flag allowSquare true) (flag allowDiagonal false)
              startPoint endPoint st ∧
    ((∃ goal, Traced mapData cb (flag allowSquare true)
                     (flag allowDiagonal false) startPoint endPoint goal ∧
              coord goal = coord endPoint ∧
              r = mkResult (rev (finalPath goal))
                           (emit (pathFound (finalPath goal)) st)) ∨
     (openList st = [] ∧ r = mkResult [] (emit noPathFound (log log_no_path st))) ∨
     r = mkResult [] (emit noPathFound (log log_no_path
                        (emit exceededLimit (log log_exceeded st))))).
Proof.
  intros Hrun Hgate.
  destruct (aStar_ends_sound _ _ _ _ _ _ _ _ Hrun Hgate) as (st & Hst & Hit).
  exists st. split; [exact Hst|].
  destruct (iteration_cases mapData cb endPoint (flag allowSquare true)
              (flag allowDiagonal false) st)
    as [[Ho E] | [[_ E] | (cur & _ & _ & Hcur & [[Hc E] | [_ E]])]];
    rewrite E in Hit; try discriminate; injection Hit as <-.
  - right; left. done.
  - right; right. done.
  - left. exists cur. repeat split; [|done].
    destruct Hst as [Hopen _ _ _ _ _ _]. rewrite Forall_forall in Hopen.
    apply Hopen. by eapply list_elem_of_lookup_2.
Qed.

End Soundness.

(** ** Calls at the edges *)

Section Edges.

Context {TileData : Type}.
Implicit Types (st : State TileData) (mapData : MapData TileData)
  (cb : Callback TileData) (r : Result TileData).

(** X5: when the start point is on the cell of the end point and the
    callback accepts that cell, the call returns the one-point path made of
    the start object in its first turn: it emits [pathFound], expands
    nothing, and has invoked the callback once, at the gate. *)
Theorem aStar_start_is_end (fuel : nat) mapData (startPoint endPoint : Node) cb
    (allowSquare allowDiagonal : option bool) :
  coord startPoint = coord endPoint →
  accepts mapData cb (node_x endPoint) (node_y endPoint) = true →
  ∃ r,
    aStar (S fuel) mapData startPoint endPoint cb allowSquare allowDiagonal
      = Some (Return r) ∧
    returned r = [startObject startPoint] ∧
    emitted (final r) = [pathFound [startObject startPoint]] ∧
    closedList (final r) = [] ∧
    length (calls (final r)) = 1%nat.
Proof.
  intros Hcoord Hgate. unfold aStar, accepts in *. rewrite Hgate.
  destruct startPoint as [sx sy ss sh sk sl], endPoint as [ex ey es eh ek el].
  unfold coord in Hcoord. simpl in Hcoord. injection Hcoord as -> ->.
  cbn -[lowestIndex]. rewrite lowestIndex_singleton. cbn.
  rewrite !Z.eqb_refl. cbn.
  eexists. split; [reflexivity|]. done.
Qed.

(** X6: when neither kind of move is allowed, the start point is not on
    the cell of the end point and the callback accepts the end point, the call
    expands the start object, finds no neighbour, and returns an empty array
    in its second turn with [noPathFound]; the callback has been invoked once,
    at the gate. *)
Theorem aStar_no_moves (fuel : nat) mapData (startPoint endPoint : Node) cb :
  coord startPoint ≠ coord endPoint →
  accepts mapData cb (node_x endPoint) (node_y endPoint) = true →
  ∃ r,
    aStar (S (S fuel)) mapData startPoint endPoint cb (Some false) (Some false)
      = Some (Return r) ∧
    returned r = [] ∧
    emitted (final r) = [noPathFound] ∧
    closedList (final r) = [startObject startPoint] ∧
    openList (final r) = [] ∧
    length (calls (final r)) = 1%nat.
Proof.
  intros Hcoord Hgate. unfold aStar, accepts in *. rewrite Hgate.
  destruct startPoint as [sx sy ss sh sk sl], endPoint as [ex ey es eh ek el].
  unfold coord in Hcoord. simpl in Hcoord.
  cbn -[lowestIndex]. rewrite lowestIndex_singleton. cbn.
  assert ((sx =? ex) && (sy =? ey) = false) as ->.
  { destruct (Z.eqb_spec sx ex) as [->|]; [|done].
    destruct (Z.eqb_spec sy ey) as [->|]; done. }
  cbn. eexists. split; [reflexivity|]. done.
Qed.

End Edges.

(** ** The returned path *)



Section Paths.

Context {TileData : Type}.
Implicit Types (st : State TileData) (mapData : MapData TileData)
  (cb : Callback TileData) (r : Result TileData).

Lemma aStar_gate_rejects (fuel : nat) mapData (startPoint endPoint : Node) cb
    (allowSquare allowDiagonal : option bool) r :
  aStar fuel mapData startPoint endPoint cb allowSquare allowDiagonal
    = Some (Return r) →
  accepts mapData cb (node_x endPoint) (node_y endPoint) = false →
  r = mkResult []
        (log log_unpathable
           (mkState [] [] ∅ ∅ [] []
              [(tileAt mapData (node_x endPoint) (node_y endPoint),
                node_x endPoint, node_y endPoint)])).
Proof.
  unfold aStar, accepts. intros Hrun Hgate. rewrite Hgate in Hrun.
  simpl in Hrun. by injection Hrun as <-.
Qed.

(** A non-empty returned array is the reversed chain of a traced object on
    the cell of the end point, and that chain is the payload of the one
    event. *)
Lemma returned_path (fuel : nat) mapData (startPoint endPoint : Node) cb
    (allowSquare allowDiagonal : option bool) r :
  aStar fuel mapData startPoint endPoint cb allowSquare allowDiagonal
    = Some (Return r) →
  returned r ≠ [] →
  ∃ goal,
    Traced mapData cb (flag allowSquare true) (flag allowDiagonal false)
           startPoint endPoint goal ∧
    coord goal = coord endPoint ∧
    returned r = rev (finalPath goal) ∧
    emitted (final r) = [pathFound (finalPath goal)].
Proof.
  intros Hrun Hne.
  destruct (accepts mapData cb (node_x endPoint) (node_y endPoint)) eqn:Hgate.
  - destruct (aStar_ends_cases _ _ _ _ _ _ _ _ Hrun Hgate)
      as (st & Hst & [(goal & Hgoal & Hc & ->) | [[_ ->] | ->]]);
      try done.
    destruct Hst as [_ _ _ _ _ _ [He _]].
    exists goal. simpl. by rewrite He.
  - rewrite (aStar_gate_rejects _ _ _ _ _ _ _ _ Hrun Hgate) in Hne. done.
Qed.


(** X7: a non-empty returned array starts with the start object (the
    caller's start point, with [link] set to 1), ends with an object on the
    cell of the end point, and is the payload of the one [pathFound] event,
    reversed. *)
Theorem aStar_path_ends (fuel : nat) mapData (startPoint endPoint : Node) cb
    (allowSquare allowDiagonal : option bool) r :
  aStar fuel mapData startPoint endPoint cb allowSquare allowDiagonal
    = Some (Return r) →
  returned r ≠ [] →
  head (returned r) = Some (startObject startPoint) ∧
  (∃ goal, last (returned r) = Some goal ∧ coord goal = coord endPoint) ∧
  emitted (final r) = [pathFound (rev (returned r))].
Proof.
  intros Hrun Hne.
  destruct (returned_path _ _ _ _ _ _ _ _ Hrun Hne)
    as (goal & Hgoal & Hc & -> & ->).
  destruct (traced_path _ _ _ _ _ _ _ Hgoal) as (Hhead & Hlast & _).
  rewrite rev_involutive. eauto.
Qed.

(** X8: the returned array is empty exactly when the call has not emitted
    [pathFound]: a found path always holds at least the start object. *)
Theorem aStar_empty_iff_not_found (fuel : nat) mapData
    (startPoint endPoint : Node) cb
    (allowSquare allowDiagonal : option bool) r :
  aStar fuel mapData startPoint endPoint cb allowSquare allowDiagonal
    = Some (Return r) →
  returned r = [] ↔ ∀ path, pathFound path ∉ emitted (final r).
Proof.
  intros Hrun.
  destruct (accepts mapData cb (node_x endPoint) (node_y endPoint)) eqn:Hgate.
  - destruct (aStar_ends_cases _ _ _ _ _ _ _ _ Hrun Hgate)
      as (st & [_ _ _ _ _ _ [He Hl]] & [(goal & Hgoal & Hc & ->) | [[_ ->] | ->]]);
      simpl; rewrite ?He.
    + destruct (traced_path _ _ _ _ _ _ _ Hgoal) as (Hhead & _ & _).
      split.
      * intros E. rewrite E in Hhead. done.
      * intros Hno. exfalso. apply (Hno (finalPath goal)).
        simpl. apply elem_of_cons. by left.
    + split; [|done]. intros _ path Hin.
      apply list_elem_of_singleton in Hin. done.
    + split; [|done]. intros _ path Hin. simpl in Hin.
      rewrite !elem_of_cons in Hin. destruct Hin as [? | [? | Hin]]; try done.
      by apply elem_of_nil in Hin.
  - rewrite (aStar_gate_rejects _ _ _ _ _ _ _ _ Hrun Hgate). simpl.
    split; [|done]. intros _ path Hin. by apply elem_of_nil in Hin.
Qed.



End Paths.

(** ** Accounts of a call *)

Section Accounts.

Context {TileData : Type}.
Implicit Types (st : State TileData) (mapData : MapData TileData)
  (cb : Callback TileData) (r : Result TileData).
#[local] Opaque openLimit.





(** X12: at the head of every turn the open list holds fewer than
    999 + 4 nodes with one kind of move and fewer than 999 + 8 with both: a
    turn expands only when the list holds at most 999 nodes, removes one and
    appends at most 4 or 8. *)
Theorem open_list_bounded (n : nat) mapData (startPoint endPoint : Node) cb
    (allowSquare allowDiagonal : option bool) st :
  headOfTurn n mapData startPoint endPoint cb allowSquare allowDiagonal
    = Some st →
  (length (openList st)
   < 999 + askedPerNode (flag allowSquare true) (flag allowDiagonal false))%nat.
Proof.
  intros Hhead. apply headOfTurn_sound in Hhead as [_ _ _ _ _ Hsize _].
  exact Hsize.
Qed.

Lemma turns_closed_length (n : nat) mapData cb (endPoint : Node)
    (sq dg : bool) :
  ∀ st st', turns n mapData cb endPoint sq dg st = Some st' →
    length (closedList st') = (length (closedList st) + n)%nat.
Proof.
  induction n as [|n IH]; intros st st' Hturns; simpl in Hturns.
  - injection Hturns as <-. lia.
  - destruct (iteration_cases mapData cb endPoint sq dg st)
      as [[_ E] | [[_ E] | (cur & _ & _ & _ & [[_ E] | [_ E]])]];
      rewrite E in Hturns; try discriminate.
    rewrite (IH _ _ Hturns).
    destruct (expand_spec mapData cb endPoint sq dg
                (lowestIndex (openList st)) cur st) as (pushed & -> & _).
    simpl. rewrite length_app. simpl. lia.
Qed.

(** X13: every turn moves exactly one node to the closed list, so after [n]
    turns it holds [n] nodes; the closed keys are the keys of these nodes; and
    none of them is on the cell of the end point, because a selected node on
    that cell ends the call instead of being expanded. *)
Theorem closed_list_account (n : nat) mapData (startPoint endPoint : Node) cb
    (allowSquare allowDiagonal : option bool) st :
  headOfTurn n mapData startPoint endPoint cb allowSquare allowDiagonal
    = Some st →
  length (closedList st) = n ∧
  closedListHash st = list_to_set (node_hash <$> closedList st) ∧
  Forall (λ o, coord o ≠ coord endPoint) (closedList st).
Proof.
  intros Hhead.
  pose proof (headOfTurn_sound _ _ _ _ _ _ _ _ Hhead) as [_ _ Hkeys Hgoal _ _ _].
  split; [|done].
  unfold headOfTurn in Hhead. destruct (negb _); [done|].
  by rewrite (turns_closed_length _ _ _ _ _ _ _ _ Hhead).
Qed.


(** X15: a turn that expands a node closes the key of that node and
    appends to the open list only objects whose key is not closed after the
    turn: the other objects of the open list stay, in their order. *)
Theorem iteration_appends_unclosed mapData cb (endPoint : Node)
    (sq dg : bool) st st' :
  iteration mapData cb endPoint sq dg st = Continue st' →
  ∃ currentNode pushed,
    openList st !! lowestIndex (openList st) = Some currentNode ∧
    closedListHash st' = {[node_hash currentNode]} ∪ closedListHash st ∧
    openList st' = delete (lowestIndex (openList st)) (openList st) ++ pushed ∧
    Forall (λ p, node_hash p ∉ closedListHash st') pushed.
Proof.
  intros Hit.
  destruct (iteration_cases mapData cb endPoint sq dg st)
    as [[_ E] | [[_ E] | (cur & _ & _ & Hcur & [[_ E] | [_ E]])]];
    rewrite E in Hit; try discriminate.
  injection Hit as <-.
  destruct (expand_spec mapData cb endPoint sq dg
              (lowestIndex (openList st)) cur st) as (pushed & -> & Hpushed).
  exists cur, pushed. simpl. repeat split; try done.
  eapply Forall_impl; [exact Hpushed|]. simpl.
  intros p (nb & _ & -> & Hnc & _). exact Hnc.
Qed.

End Accounts.

(** ** The further properties on the open grid *)

Lemma aStar_start_is_end_witness :
  coord (IgePoint 3 4) = coord (IgePoint 3 4) ∧
  accepts (openGrid 4 5) isTile (node_x (IgePoint 3 4)) (node_y (IgePoint 3 4))
    = true ∧
  ∃ r,
    aStar 1 (openGrid 4 5) (IgePoint 3 4) (IgePoint 3 4) isTile None None
      = Some (Return r) ∧
    returned r = [startObject (IgePoint 3 4)] ∧
    emitted (final r) = [pathFound [startObject (IgePoint 3 4)]] ∧
    closedList (final r) = [] ∧
    length (calls (final r)) = 1%nat.
Proof.
  split; [reflexivity|]. split; [vm_compute; reflexivity|].
  apply (aStar_start_is_end 0 (openGrid 4 5) (IgePoint 3 4) (IgePoint 3 4)
           isTile None None).
  - reflexivity.
  - vm_compute. reflexivity.
Defined.

Lemma aStar_no_moves_witness :
  coord (IgePoint 0 0) ≠ coord (IgePoint 3 4) ∧
  accepts (openGrid 4 5) isTile (node_x (IgePoint 3 4)) (node_y (IgePoint 3 4))
    = true ∧
  ∃ r,
    aStar 2 (openGrid 4 5) (IgePoint 0 0) (IgePoint 3 4) isTile
          (Some false) (Some false) = Some (Return r) ∧
    returned r = [] ∧
    emitted (final r) = [noPathFound] ∧
    closedList (final r) = [startObject (IgePoint 0 0)] ∧
    openList (final r) = [] ∧
    length (calls (final r)) = 1%nat.
Proof.
  assert (coord (IgePoint 0 0) ≠ coord (IgePoint 3 4)) as Hne
    by (vm_compute; discriminate).
  split; [exact Hne|]. split; [vm_compute; reflexivity|].
  apply (aStar_no_moves 0 (openGrid 4 5) (IgePoint 0 0) (IgePoint 3 4) isTile).
  - exact Hne.
  - vm_compute. reflexivity.
Defined.

Lemma aStar_path_ends_witness :
  gridCall = Some (Return gridResult) ∧
  returned gridResult ≠ [] ∧
  head (returned gridResult) = Some (startObject (IgePoint 0 0)) ∧
  (∃ goal, last (returned gridResult) = Some goal ∧
           coord goal = coord (IgePoint 3 4)) ∧
  emitted (final gridResult) = [pathFound (rev (returned gridResult))].
Proof.
  assert (gridCall = Some (Return gridResult)) as Hrun
    by (vm_compute; reflexivity).
  assert (returned gridResult ≠ []) as Hne by (vm_compute; discriminate).
  split; [exact Hrun|]. split; [exact Hne|].
  exact (aStar_path_ends 8 (openGrid 4 5) (IgePoint 0 0) (IgePoint 3 4) isTile
           (Some true) (Some false) gridResult Hrun Hne).
Defined.

Lemma aStar_empty_iff_not_found_witness :
  gridCall = Some (Return gridResult) ∧
  (returned gridResult = [] ↔
   ∀ path, pathFound path ∉ emitted (final gridResult)).
Proof.
  assert (gridCall = Some (Return gridResult)) as Hrun
    by (vm_compute; reflexivity).
  split; [exact Hrun|].
  exact (aStar_empty_iff_not_found 8 (openGrid 4 5) (IgePoint 0 0)
           (IgePoint 3 4) isTile (Some true) (Some false) gridResult Hrun).
Defined.




Lemma open_list_bounded_witness :
  headOfTurn 3 (openGrid 4 5) (IgePoint 0 0) (IgePoint 3 4) isTile None None
    = Some (gridTurn 3) ∧
  (length (openList (gridTurn 3))
   < 999 + askedPerNode (flag None true) (flag None false))%nat.
Proof.
  assert (headOfTurn 3 (openGrid 4 5) (IgePoint 0 0) (IgePoint 3 4) isTile
                     None None = Some (gridTurn 3)) as Hhead
    by (vm_compute; reflexivity).
  split; [exact Hhead|].
  exact (open_list_bounded 3 (openGrid 4 5) (IgePoint 0 0) (IgePoint 3 4)
           isTile None None (gridTurn 3) Hhead).
Defined.

Lemma closed_list_account_witness :
  headOfTurn 3 (openGrid 4 5) (IgePoint 0 0) (IgePoint 3 4) isTile None None
    = Some (gridTurn 3) ∧
  length (closedList (gridTurn 3)) = 3%nat ∧
  closedListHash (gridTurn 3)
    = list_to_set (node_hash <$> closedList (gridTurn 3)) ∧
  Forall (λ o, coord o ≠ coord (IgePoint 3 4)) (closedList (gridTurn 3)).
Proof.
  assert (headOfTurn 3 (openGrid 4 5) (IgePoint 0 0) (IgePoint 3 4) isTile
                     None None = Some (gridTurn 3)) as Hhead
    by (vm_compute; reflexivity).
  split; [exact Hhead|].
  exact (closed_list_account 3 (openGrid 4 5) (IgePoint 0 0) (IgePoint 3 4)
           isTile None None (gridTurn 3) Hhead).
Defined.


Lemma iteration_appends_unclosed_witness :
  iteration (openGrid 4 5) isTile (IgePoint 3 4) true false (gridTurn 3)
    = Continue (gridTurn 4) ∧
  ∃ currentNode pushed,
    openList (gridTurn 3) !! lowestIndex (openList (gridTurn 3))
      = Some currentNode ∧
    closedListHash (gridTurn 4)
      = {[node_hash currentNode]} ∪ closedListHash (gridTurn 3) ∧
    openList (gridTurn 4)
      = delete (lowestIndex (openList (gridTurn 3))) (openList (gridTurn 3))
        ++ pushed ∧
    Forall (λ p, node_hash p ∉ closedListHash (gridTurn 4)) pushed.
Proof.
  assert (iteration (openGrid 4 5) isTile (IgePoint 3 4) true false (gridTurn 3)
          = Continue (gridTurn 4)) as Hit by (vm_compute; reflexivity).
  split; [exact Hit|].
  exact (iteration_appends_unclosed (openGrid 4 5) isTile (IgePoint 3 4)
           true false (gridTurn 3) (gridTurn 4) Hit).
Defined.

(** * IgeAnimationComponent *)

Import IgeAnimationComponent.

(** ** The numbers of the component *)

Lemma toInt32_small z : - 2 ^ 31 <= z < 2 ^ 31 -> toInt32 z = z.
Proof.
  intros Hz. unfold toInt32. rewrite Z.mod_small; lia.
Qed.

Lemma orZero_divide a b :
  0 < b -> 0 <= a < 2 ^ 31 -> orZero (divide a b) = a / b.
Proof.
  intros Hb Ha. unfold divide.
  destruct (Z.eqb_spec b 0) as [->|_]; [lia|].
  destruct (Z.ltb_spec 0 b) as [_|?]; [|lia].
  cbn [orZero Qnum Qden]. rewrite Z2Pos.id by lia.
  rewrite Z.quot_div_nonneg by lia.
  apply toInt32_small.
  assert (0 <= a / b) by (apply Z.div_pos; lia).
  assert (a / b <= a) by (apply Z.div_le_upper_bound; nia).
  lia.
Qed.

Lemma absAboveOne_divide a b :
  0 < b -> 0 <= a -> absAboveOne (divide a b) = (b <? a).
Proof.
  intros Hb Ha. unfold divide.
  destruct (Z.eqb_spec b 0) as [->|_]; [lia|].
  destruct (Z.ltb_spec 0 b) as [_|?]; [|lia].
  cbn [absAboveOne]. unfold Qle_bool, Qabs. cbn [Qnum Qden].
  rewrite Z2Pos.id by lia. rewrite Z.abs_eq by lia.
  destruct (Z.leb_spec (a * 1) (1 * b)), (Z.ltb_spec b a); simpl; try reflexivity; lia.
Qed.

Section AnimationComponent.
Context {Id : Type} `{Countable Id} {Cell : Type}.
Implicit Types (c : Component Id Cell) (anim a : Anim Cell).

Lemma sameAnimation_refl a : sameAnimation a a.
Proof. by repeat split. Qed.

Lemma sameAnimation_trans a b d :
  sameAnimation a b -> sameAnimation b d -> sameAnimation a d.
Proof.
  intros (?&?&?&?&?) (?&?&?&?&?). repeat split; congruence.
Qed.

Lemma sameAnimation_Made a b : sameAnimation a b -> Made a -> Made b.
Proof.
  intros (Hf&Ht&_&Hc&Htt) [H1 H2]. split; congruence.
Qed.

Lemma loopBack_same a : sameAnimation a (loopBack a).
Proof.
  unfold loopBack. destruct (absAboveOne _); by repeat split.
Qed.

(** What a tick that returns has done. *)
Lemma tick_spec tickDelta c c' :
  tick tickDelta c = Some c' ->
  exists ref a a' (stopped : bool) cell,
    Playing c ref a /\ sameAnimation a a' /\
    store c' = <[ref := a']> (store c) /\
    _anims c' = _anims c /\ _anims_length c' = _anims_length c /\
    _anim c' = (if stopped then None else _anim c) /\
    _animId c' = (if stopped then None else _animId c) /\
    shown c' = shown c ++ [cell] /\ warned c' = warned c.
Proof.
  unfold tick. destruct (_anim c) as [ref|] eqn:Hanim; [|done].
  destruct (store c !! ref) as [a|] eqn:Hstore; [|done].
  set (a1 := set_currentDelta _ a).
  assert (Ha1 : sameAnimation a a1) by by repeat split.
  match goal with
  | |- context [let '(_, _) := ?e in _] => destruct e as [a' stopped] eqn:He
  end.
  assert (Ha' : sameAnimation a a').
  { destruct (totalTime a1 <? currentDelta a1).
    - destruct (loop a1 =? 0); [by inversion He; subst|].
      destruct (loop a1 =? -1).
      + inversion He; subst. eapply sameAnimation_trans; [exact Ha1|].
        apply loopBack_same.
      + set (a2 := set_currentLoop _ a1) in He.
        assert (Ha2 : sameAnimation a a2) by by repeat split.
        destruct (_ && _); inversion He; subst; [|done].
        eapply sameAnimation_trans; [exact Ha2|]. apply loopBack_same.
    - by inversion He; subst. }
  intros [= <-]. exists ref, a, a', stopped. eexists.
  split; [done|]. split; [done|].
  destruct stopped; simpl; by rewrite ?Hanim.
Qed.

Lemma Valid_init : Valid (init : Component Id Cell).
Proof.
  split; simpl; done.
Qed.

Lemma Made_defined (frames : list Cell) (frameTime loop : Z) :
  Made (mkAnim frames frameTime loop (Z.of_nat (List.length frames))
               (Z.of_nat (List.length frames) * frameTime) 0 0 None).
Proof. by split. Qed.

Lemma Valid_define id frames fps loop c :
  Valid c -> Valid (define id frames fps loop c).
Proof.
  intros [Hm Ha Has Hid Hl]. split; simpl.
  - apply Forall_app. split; [done|]. apply Forall_singleton, Made_defined.
  - intros ref Href. rewrite length_app. simpl. specialize (Ha _ Href). lia.
  - intros id' ref. rewrite length_app. simpl.
    destruct (decide (id = id')) as [->|Hne].
    + rewrite lookup_insert_eq. intros [= <-]. lia.
    + rewrite lookup_insert_ne by done. intros Href.
      specialize (Has _ _ Href). lia.
  - done.
  - destruct (_anims c !! id) eqn:Hlook.
    + rewrite map_size_insert_Some by done. lia.
    + rewrite map_size_insert_None by done. lia.
Qed.

Lemma Valid_start animId now c : Valid c -> Valid (start animId now c).
Proof.
  intros [Hm Ha Has Hid Hl]. unfold start.
  destruct (_anims c !! animId) as [ref|] eqn:Hlook; split; simpl; try done.
  - apply Forall_alter; [done|].
    intros a _ [H1 H2]. by split.
  - intros ref' [= <-]. rewrite length_alter. eauto.
  - intros id ref'. rewrite length_alter. eauto.
Qed.

Lemma Valid_stop c : Valid c -> Valid (stop c).
Proof.
  intros [Hm Ha Has Hid Hl]. split; simpl; done.
Qed.

Lemma Valid_tick tickDelta c c' :
  Valid c -> tick tickDelta c = Some c' -> Valid c'.
Proof.
  intros [Hm Ha Has Hid Hl] Ht.
  destruct (tick_spec _ _ _ Ht)
    as (ref & a & a' & stopped & cell & [Hp1 Hp2] & Hs & Hst & Hans & Hlen
        & Han & Haid & _ & _).
  split.
  - rewrite Hst. apply Forall_insert; [done|].
    eapply sameAnimation_Made; [exact Hs|].
    eapply Forall_lookup_1; eauto.
  - rewrite Hst, length_insert, Han. destruct stopped; [done|]. eauto.
  - rewrite Hst, Hans, length_insert. eauto.
  - rewrite Han, Haid. destruct stopped; done.
  - by rewrite Hans, Hlen.
Qed.

Lemma Reachable_Valid c : Reachable c -> Valid c.
Proof.
  induction 1;
    eauto using Valid_init, Valid_define, Valid_start, Valid_stop, Valid_tick.
Qed.

(** X16: on a component made by calls of [define], [start], [stop] and
    [tick], a tick fails (with the TypeError of reading a property of
    [undefined]) exactly when no animation is started: before the first
    [start], after [stop], and after the tick that ended an animation. *)
Theorem tick_fails_iff_not_started tickDelta c :
  Reachable c -> tick tickDelta c = None <-> _anim c = None.
Proof.
  intros Hr. apply Reachable_Valid in Hr. destruct Hr as [_ Ha _ _ _].
  unfold tick. destruct (_anim c) as [ref|]; [|done].
  destruct (lookup_lt_is_Some_2 (store c) ref (Ha _ eq_refl)) as [a ->].
  split; [|done].
  by match goal with
     | |- context [let '(_, _) := ?e in _] => destruct e
     end.
Qed.

(** X17: defining an animation, even under the id of the one that is
    playing, does not change what the next tick does: the component keeps
    playing the object it was started with, and the tick and the definition
    can be taken in either order. *)
Theorem define_commutes_with_tick id frames fps loop tickDelta c :
  Reachable c ->
  tick tickDelta (define id frames fps loop c)
  = define id frames fps loop <$> tick tickDelta c.
Proof.
  intros Hr. apply Reachable_Valid in Hr. destruct Hr as [_ Ha _ _ _].
  unfold tick. cbn [define _anim store].
  destruct (_anim c) as [ref|] eqn:Hanim; [|done].
  specialize (Ha _ eq_refl).
  rewrite lookup_app_l by done.
  destruct (store c !! ref) as [a|]; [|done].
  match goal with
  | |- context [let '(_, _) := ?e in _] => destruct e as [a' stopped]
  end.
  destruct stopped; cbn; unfold define; cbn;
    by rewrite insert_app_l, length_insert.
Qed.

(** The frame time that [define] computes from [fps]. *)
Lemma frameTime_of_fps fps :
  orZero (divide 1000 fps) = if fps =? 0 then 0 else Z.quot 1000 fps.
Proof.
  unfold divide. destruct (Z.eqb_spec fps 0) as [->|Hne]; [done|].
  assert (Hq : Z.abs (Z.quot 1000 fps) <= 1000).
  { pose proof (Z.quot_abs 1000 fps Hne) as Hq. rewrite <- Hq.
    apply Z.quot_le_upper_bound; lia. }
  destruct (Z.ltb_spec 0 fps); cbn [orZero Qnum Qden].
  - rewrite Z2Pos.id by lia. apply toInt32_small. lia.
  - rewrite Z2Pos.id by lia. rewrite Z.quot_opp_opp by lia.
    apply toInt32_small. lia.
Qed.

(** [start] after [define] plays the object that [define] has just made. *)
Lemma start_define_playing id frames fps loop now c :
  Playing (start id now (define id frames fps loop c))
    (List.length (store c))
    (mkAnim frames (orZero (divide 1000 fps)) loop
            (Z.of_nat (List.length frames))
            (Z.of_nat (List.length frames) * orZero (divide 1000 fps))
            0 0 (Some now)).
Proof.
  unfold start, define. cbn [_anims store].
  rewrite lookup_insert_eq. split; [done|]. cbn.
  rewrite list_lookup_alter_eq.
  by rewrite lookup_app_r, Nat.sub_diag by done.
Qed.

(** X18: [start] after [define] of the same id plays the animation just
    defined, from time 0 and loop 0, whatever the id stood for before; its
    frame time is 1000 / fps cut towards zero (0 for fps 0), its total time
    the number of frames times the frame time; the objects defined before
    are left as they were. *)
Theorem define_then_start id frames fps loop now c :
  let frameTime := if fps =? 0 then 0 else Z.quot 1000 fps in
  let count := Z.of_nat (List.length frames) in
  let c' := start id now (define id frames fps loop c) in
  Playing c' (List.length (store c))
    (mkAnim frames frameTime loop count (count * frameTime) 0 0 (Some now)) /\
  _animId c' = Some id /\
  (forall ref, (ref < List.length (store c))%nat ->
     store c' !! ref = store c !! ref).
Proof.
  cbn zeta. rewrite <- frameTime_of_fps.
  split; [apply start_define_playing|].
  unfold start, define. cbn [_anims store].
  rewrite lookup_insert_eq. cbn. split; [done|].
  intros ref Href. rewrite list_lookup_alter_ne by lia.
  by rewrite lookup_app_l.
Qed.

(** The total time of an animation with frames and a frame time. *)
Lemma Made_totalTime a :
  Made a -> 0 < frameTime a -> frames a <> [] ->
  0 < frameCount a /\ frameTime a <= totalTime a.
Proof.
  intros [Hc Ht] Hft Hne.
  assert (0 < frameCount a).
  { rewrite Hc. destruct (frames a); [done|]. simpl. lia. }
  split; [done|]. rewrite Ht. nia.
Qed.

(** The cell that the last statements of [tick] pass to the entity. *)
Lemma shown_frame a :
  Made a -> 0 < frameTime a -> frames a <> [] ->
  0 <= currentDelta a < 2 ^ 31 ->
  exists cell,
    frameAt a
      (if frameCount a <=? orZero (divide (currentDelta a) (frameTime a))
       then frameCount a - 1
       else orZero (divide (currentDelta a) (frameTime a)))
    = Some cell /\
    frames a !! Z.to_nat (Z.min (currentDelta a / frameTime a)
                                (frameCount a - 1)) = Some cell.
Proof.
  intros Hm Hft Hne Hcd.
  destruct (Made_totalTime a Hm Hft Hne) as [Hn _]. destruct Hm as [Hc _].
  rewrite orZero_divide by done.
  assert (Hq : 0 <= currentDelta a / frameTime a) by (apply Z.div_pos; lia).
  set (q := currentDelta a / frameTime a) in *.
  assert (Hlt : (Z.to_nat (Z.min q (frameCount a - 1))
                 < List.length (frames a))%nat) by lia.
  destruct (lookup_lt_is_Some_2 _ _ Hlt) as [cell Hcell].
  exists cell. split; [|done]. unfold frameAt.
  destruct (Z.leb_spec (frameCount a) q).
  - destruct (Z.ltb_spec (frameCount a - 1) 0); [lia|].
    by rewrite Z.min_r in Hcell by lia.
  - destruct (Z.ltb_spec q 0); [lia|].
    by rewrite Z.min_l in Hcell by lia.
Qed.

Lemma tick_loop_step c ref a tickDelta :
  Playing c ref a -> Made a -> loop a = -1 ->
  0 < frameTime a -> frames a <> [] ->
  0 <= currentDelta a <= totalTime a ->
  0 <= tickDelta -> currentDelta a + tickDelta < 2 ^ 31 ->
  exists c' a' cell,
    tick tickDelta c = Some c' /\ Playing c' ref a' /\
    _animId c' = _animId c /\ sameAnimation a a' /\
    currentLoop a' = currentLoop a /\
    currentDelta a'
    = (if currentDelta a + tickDelta <=? totalTime a
       then currentDelta a + tickDelta
       else (currentDelta a + tickDelta) mod totalTime a) /\
    0 <= currentDelta a' <= totalTime a /\
    shown c' = shown c ++ [Some cell] /\
    frames a !! Z.to_nat (Z.min (currentDelta a' / frameTime a)
                                (frameCount a - 1)) = Some cell.
Proof.
  intros [Hanim Hstore] Hm Hloop Hft Hne Hcd Hd Hbound.
  destruct (Made_totalTime a Hm Hft Hne) as [Hn Htt].
  set (d := if currentDelta a + tickDelta <=? totalTime a
            then currentDelta a + tickDelta
            else (currentDelta a + tickDelta) mod totalTime a).
  set (a' := set_currentDelta d a).
  assert (Hd' : 0 <= d <= totalTime a /\ d <= currentDelta a + tickDelta).
  { subst d. destruct (Z.leb_spec (currentDelta a + tickDelta) (totalTime a));
      [lia|].
    pose proof (Z.mod_pos_bound (currentDelta a + tickDelta) (totalTime a)).
    pose proof (Z.mod_le (currentDelta a + tickDelta) (totalTime a)).
    lia. }
  assert (Hsame : sameAnimation a a') by by repeat split.
  destruct (shown_frame a') as (cell & Hcell & Hframe);
    [by eapply sameAnimation_Made|done|done|simpl; lia|].
  assert (Hstep :
    (if totalTime a <? currentDelta a + tickDelta
     then (loopBack (set_currentDelta (currentDelta a + tickDelta) a), false)
     else (set_currentDelta (currentDelta a + tickDelta) a, false))
    = (a', false)).
  { subst a' d.
    destruct (Z.ltb_spec (totalTime a) (currentDelta a + tickDelta)),
             (Z.leb_spec (currentDelta a + tickDelta) (totalTime a));
      try lia; [|done].
    unfold loopBack. cbn [currentDelta totalTime set_currentDelta].
    rewrite absAboveOne_divide by lia.
    destruct (Z.ltb_spec (totalTime a) (currentDelta a + tickDelta)); [|lia].
    rewrite orZero_divide by lia. unfold set_currentDelta. cbn.
    do 2 f_equal. rewrite Z.mod_eq by lia. lia. }
  eexists _, a', cell. split.
  { unfold tick. rewrite Hanim, Hstore.
    cbn [totalTime currentDelta loop set_currentDelta]. rewrite Hloop.
    cbn [Z.eqb Pos.eqb]. rewrite Hstep. cbn zeta iota. rewrite Hcell. reflexivity. }
  cbn. split; [split; [done|]|].
  { apply list_lookup_insert_eq. by eapply lookup_lt_Some. }
  repeat split; try done; lia.
Qed.

(** The cell shown by a tick that runs past the end without looping back:
    the last frame. *)
Lemma shown_last a :
  Made a -> 0 < frameTime a -> totalTime a < currentDelta a < 2 ^ 31 ->
  frameAt a
    (if frameCount a <=? orZero (divide (currentDelta a) (frameTime a))
     then frameCount a - 1
     else orZero (divide (currentDelta a) (frameTime a)))
  = last (frames a).
Proof.
  intros [Hc Ht] Hft Hcd.
  assert (Hn : 0 <= frameCount a) by lia.
  rewrite orZero_divide by nia.
  assert (Hq : frameCount a <= currentDelta a / frameTime a).
  { apply Z.div_le_lower_bound; lia. }
  destruct (Z.leb_spec (frameCount a) (currentDelta a / frameTime a)); [|lia].
  unfold frameAt. rewrite last_lookup.
  destruct (frames a) as [|cell l]; [by rewrite Hc|].
  destruct (Z.ltb_spec (frameCount a - 1) 0); [simpl in Hc; lia|].
  f_equal. simpl in *. lia.
Qed.

(** X19: for a playing animation without loop (loop 0) that has the frame
    count and the total time that [define] gives it and a positive frame time
    (an [fps] from 1 to 1000), a tick that takes its time past its total time
    and leaves it below 2^31 stops the animation and shows its last frame
    ([undefined] when it has no frame); every tick after it fails, as no
    animation is started. *)
Theorem tick_ends_single_run c ref a tickDelta :
  Playing c ref a -> Made a -> loop a = 0 -> 0 < frameTime a ->
  totalTime a < currentDelta a + tickDelta < 2 ^ 31 ->
  exists c',
    tick tickDelta c = Some c' /\
    _anim c' = None /\ _animId c' = None /\
    shown c' = shown c ++ [last (frames a)] /\
    forall tickDelta', tick tickDelta' c' = None.
Proof.
  intros [Hanim Hstore] Hm Hloop Hft Hcd.
  set (a' := set_currentDelta (currentDelta a + tickDelta) a).
  assert (Hlast := shown_last a' Hm Hft Hcd).
  eexists. split.
  { unfold tick. rewrite Hanim, Hstore.
    cbn [totalTime currentDelta loop set_currentDelta]. rewrite Hloop.
    destruct (Z.ltb_spec (totalTime a) (currentDelta a + tickDelta)); [|lia].
    cbn [Z.eqb]. cbn zeta iota. fold a'. rewrite Hlast. reflexivity. }
  by cbn.
Qed.

(** X20: for a playing animation with a loop count [n > 0] that has the
    frame count and the total time that [define] gives it, a positive frame
    time (an [fps] from 1 to 1000) and at least one frame, a tick that takes
    its time past its total time and leaves it below 2^31 counts one more
    loop; when the loops counted before are fewer than [n] the time becomes
    its remainder by the total time, the frame at that time is shown and the
    animation goes on; otherwise the animation is stopped, its time is left
    past the end, and its last frame is shown. *)
Theorem tick_counted_loop c ref a tickDelta :
  Playing c ref a -> Made a -> 0 < loop a ->
  0 < frameTime a -> frames a <> [] ->
  totalTime a < currentDelta a + tickDelta < 2 ^ 31 ->
  (currentLoop a < loop a ->
   exists c' a' cell,
     tick tickDelta c = Some c' /\ Playing c' ref a' /\
     _animId c' = _animId c /\ sameAnimation a a' /\
     currentLoop a' = currentLoop a + 1 /\
     currentDelta a' = (currentDelta a + tickDelta) mod totalTime a /\
     shown c' = shown c ++ [Some cell] /\
     frames a !! Z.to_nat (Z.min (currentDelta a' / frameTime a)
                                 (frameCount a - 1)) = Some cell) /\
  (loop a <= currentLoop a ->
   exists c' a',
     tick tickDelta c = Some c' /\
     _anim c' = None /\ _animId c' = None /\
     store c' !! ref = Some a' /\ sameAnimation a a' /\
     currentLoop a' = currentLoop a + 1 /\
     currentDelta a' = currentDelta a + tickDelta /\
     shown c' = shown c ++ [last (frames a)]).
Proof.
  intros [Hanim Hstore] Hm Hloop Hft Hne Hcd.
  destruct (Made_totalTime a Hm Hft Hne) as [Hn Htt].
  assert (Hlt : (ref < List.length (store c))%nat) by by eapply lookup_lt_Some.
  assert (Hrun : forall P : Anim Cell * bool -> option (Component Id Cell),
    tick tickDelta c
    = (let '(anim, stopped) :=
         let anim :=
           set_currentLoop (currentLoop a + 1)
             (set_currentDelta (currentDelta a + tickDelta) a) in
         if currentLoop a + 1 <=? loop a
         then (loopBack anim, false) else (anim, true) in
       let frame := orZero (divide (currentDelta anim) (frameTime anim)) in
       let frame :=
         if frameCount anim <=? frame then frameCount anim - 1 else frame in
       let c := if stopped then stop c else c in
       Some (mkComponent (<[ref := anim]> (store c)) (_anims c)
                         (_anims_length c) (_anim c) (_animId c)
                         (shown c ++ [frameAt anim frame]) (warned c)))).
  { intros _. unfold tick. rewrite Hanim, Hstore.
    cbn [totalTime currentDelta loop set_currentDelta currentLoop
         set_currentLoop].
    destruct (Z.ltb_spec (totalTime a) (currentDelta a + tickDelta)); [|lia].
    destruct (Z.eqb_spec (loop a) 0); [lia|].
    destruct (Z.eqb_spec (loop a) (-1)); [lia|].
    destruct (Z.ltb_spec 0 (loop a)); [|lia]. reflexivity. }
  specialize (Hrun (fun _ => None)). split.
  - intros Hmore.
    set (a' := set_currentDelta ((currentDelta a + tickDelta) mod totalTime a)
                 (set_currentLoop (currentLoop a + 1) a)).
    assert (Hsame : sameAnimation a a') by by repeat split.
    pose proof (Z.mod_pos_bound (currentDelta a + tickDelta) (totalTime a)).
    pose proof (Z.mod_le (currentDelta a + tickDelta) (totalTime a)).
    destruct (shown_frame a') as (cell & Hcell & Hframe);
      [by eapply sameAnimation_Made|done|done|simpl; lia|].
    assert (Hback :
      loopBack (set_currentLoop (currentLoop a + 1)
                  (set_currentDelta (currentDelta a + tickDelta) a)) = a').
    { unfold loopBack. cbn [currentDelta totalTime set_currentDelta
                            set_currentLoop].
      rewrite absAboveOne_divide by lia.
      destruct (Z.ltb_spec (totalTime a) (currentDelta a + tickDelta)); [|lia].
      rewrite orZero_divide by lia. subst a'.
      unfold set_currentDelta, set_currentLoop. cbn.
      f_equal. rewrite Z.mod_eq by lia. lia. }
    eexists _, a', cell. split.
    { rewrite Hrun. cbn zeta.
      destruct (Z.leb_spec (currentLoop a + 1) (loop a)); [|lia].
      rewrite Hback. cbn zeta iota. rewrite Hcell. reflexivity. }
    cbn. split; [split; [done|by apply list_lookup_insert_eq]|].
    by repeat split.
  - intros Hdone.
    set (a' := set_currentLoop (currentLoop a + 1)
                 (set_currentDelta (currentDelta a + tickDelta) a)).
    assert (Hsame : sameAnimation a a') by by repeat split.
    assert (Hlast := shown_last a' (sameAnimation_Made _ _ Hsame Hm) Hft Hcd).
    eexists _, a'. split.
    { rewrite Hrun. cbn zeta.
      destruct (Z.leb_spec (currentLoop a + 1) (loop a)); [lia|].
      cbn zeta iota. fold a'. rewrite Hlast. reflexivity. }
    cbn. repeat split; try done. by apply list_lookup_insert_eq.
Qed.

(** X21: take a playing animation that loops for ever (loop -1), has the
    frame count and the total time that [define] gives it, a positive frame
    time (an [fps] from 1 to 1000) and at least one frame, and whose time is
    between 0 and its total time. Through any run of ticks whose times are
    not negative and, added to the total time, stay below 2^31, it keeps
    playing: its time stays between 0 and the total time and is congruent,
    modulo the total time, to the time elapsed, and every tick shows one of
    its frames. *)
Theorem ticks_loop_for_ever tickDeltas : forall c ref a,
  Playing c ref a -> Made a -> loop a = -1 ->
  0 < frameTime a -> frames a <> [] ->
  0 <= currentDelta a <= totalTime a ->
  Forall (fun tickDelta => 0 <= tickDelta /\ totalTime a + tickDelta < 2 ^ 31)
         tickDeltas ->
  exists c' a' cells,
    ticks tickDeltas c = Some c' /\ Playing c' ref a' /\
    _animId c' = _animId c /\ sameAnimation a a' /\
    0 <= currentDelta a' <= totalTime a /\
    currentDelta a' mod totalTime a
    = (currentDelta a + foldr Z.add 0 tickDeltas) mod totalTime a /\
    shown c' = shown c ++ (Some <$> cells) /\
    List.length cells = List.length tickDeltas /\
    Forall (fun cell => cell ∈ frames a) cells.
Proof.
  induction tickDeltas as [|tickDelta rest IH];
    intros c ref a Hp Hm Hloop Hft Hne Hcd Hall.
  - exists c, a, []. simpl. rewrite app_nil_r, Z.add_0_r.
    split; [done|]. split; [exact Hp|]. split; [done|].
    split; [apply sameAnimation_refl|]. split; [lia|]. by repeat split.
  - apply Forall_cons in Hall as [[Hd Hb] Hall].
    destruct (tick_loop_step c ref a tickDelta Hp Hm Hloop Hft Hne Hcd Hd)
      as (c1 & a1 & cell & Ht & Hp1 & Hid1 & Hs1 & _ & Hd1 & Hr1 & Hsh1 & Hc1);
      [lia|].
    destruct Hs1 as (Hf & Hft1 & Hl1 & Hfc & Htt).
    destruct (IH c1 ref a1) as
      (c' & a' & cells & Hts & Hp' & Hid' & Hs' & Hr' & Hmod & Hsh' & Hlen
       & Hin); try done.
    + eapply sameAnimation_Made; [|exact Hm]. by repeat split.
    + congruence.
    + lia.
    + by rewrite Hf.
    + lia.
    + by rewrite Htt.
    + exists c', a', (cell :: cells). simpl. rewrite Ht.
      split; [done|]. split; [done|]. split; [congruence|].
      split; [eapply sameAnimation_trans; [|exact Hs']; by repeat split|].
      split; [lia|]. split.
      { rewrite Htt in Hmod. rewrite Hmod.
        destruct (Made_totalTime a Hm Hft Hne) as [_ Hpos].
        rewrite Hd1.
        destruct (Z.leb_spec (currentDelta a + tickDelta) (totalTime a)).
        - f_equal. lia.
        - rewrite Zplus_mod_idemp_l. f_equal. lia. }
      split; [by rewrite Hsh', Hsh1, <- app_assoc|].
      split; [by rewrite Hlen|].
      apply Forall_cons. split.
      * by eapply list_elem_of_lookup_2.
      * by rewrite Hf in Hin.
Qed.

Lemma tick_still_step c ref a tickDelta :
  Playing c ref a -> Made a -> frameTime a = 0 -> loop a = -1 ->
  0 <= currentDelta a -> 0 < tickDelta ->
  exists c',
    tick tickDelta c = Some c' /\
    Playing c' ref (set_currentDelta (currentDelta a + tickDelta) a) /\
    _animId c' = _animId c /\
    shown c' = shown c ++ [head (frames a)].
Proof.
  intros [Hanim Hstore] [Hc Htt] Hft Hloop Hcd Hd.
  assert (Hlt : (ref < List.length (store c))%nat) by by eapply lookup_lt_Some.
  rewrite Hft, Z.mul_0_r in Htt.
  set (a' := set_currentDelta (currentDelta a + tickDelta) a).
  assert (Hdiv : forall d, 0 < d -> divide d 0 = PlusInfinity).
  { intros d Hpos. unfold divide. cbn [Z.eqb].
    destruct (Z.eqb_spec d 0); [lia|]. by destruct (Z.ltb_spec 0 d); [|lia]. }
  assert (Hback : loopBack a' = a').
  { unfold loopBack. cbn [totalTime currentDelta a' set_currentDelta].
    rewrite Htt, Hdiv by lia. cbn [absAboveOne orZero].
    subst a'. unfold set_currentDelta. cbn. f_equal. lia. }
  assert (Hframe :
    frameAt a'
      (if frameCount a' <=? orZero (divide (currentDelta a') (frameTime a'))
       then frameCount a' - 1
       else orZero (divide (currentDelta a') (frameTime a')))
    = head (frames a)).
  { clear Hback. subst a'.
    cbn [totalTime currentDelta frameCount frameTime frames set_currentDelta].
    rewrite Hft, Hdiv by lia. cbn [orZero]. unfold frameAt.
    cbn [frames set_currentDelta].
    rewrite Hc. destruct (frames a) as [|cell l]; [done|].
    destruct (Z.leb_spec (Z.of_nat (List.length (cell :: l))) 0);
      [simpl in *; lia|]. reflexivity. }
  eexists. split.
  { unfold tick. rewrite Hanim, Hstore.
    cbn [totalTime currentDelta loop set_currentDelta]. rewrite Hloop, Htt.
    destruct (Z.ltb_spec 0 (currentDelta a + tickDelta)); [|lia].
    cbn [Z.eqb Pos.eqb]. fold a'. rewrite Hback. cbn zeta iota.
    rewrite Hframe. reflexivity. }
  cbn. split; [split; [done|]|split; [done|]].
  - by apply list_lookup_insert_eq.
  - done.
Qed.

(** X22: take a playing animation that loops for ever (loop -1), has the
    frame count and the total time that [define] gives it, a positive frame
    time (an [fps] from 1 to 1000) and at least one frame, and whose time is
    between 0 and its total time. One tick whose time is not negative and
    leaves the time of the animation below 2^31 adds its time and, past the
    total time, takes the remainder by it; the frame shown is the one at the
    quotient of the time by the frame time, the last frame when the time is
    the total time itself. *)
Theorem tick_loops_back c ref a tickDelta :
  Playing c ref a -> Made a -> loop a = -1 ->
  0 < frameTime a -> frames a <> [] ->
  0 <= currentDelta a <= totalTime a ->
  0 <= tickDelta -> currentDelta a + tickDelta < 2 ^ 31 ->
  exists c' a' cell,
    tick tickDelta c = Some c' /\ Playing c' ref a' /\
    _animId c' = _animId c /\ sameAnimation a a' /\
    currentLoop a' = currentLoop a /\
    currentDelta a'
    = (if currentDelta a + tickDelta <=? totalTime a
       then currentDelta a + tickDelta
       else (currentDelta a + tickDelta) mod totalTime a) /\
    0 <= currentDelta a' <= totalTime a /\
    shown c' = shown c ++ [Some cell] /\
    frames a !! Z.to_nat (Z.min (currentDelta a' / frameTime a)
                                (frameCount a - 1)) = Some cell.
Proof. exact (tick_loop_step c ref a tickDelta). Qed.

Lemma ticks_still_run tickDeltas : forall c ref a,
  Playing c ref a -> Made a -> frameTime a = 0 -> loop a = -1 ->
  0 <= currentDelta a -> Forall (fun tickDelta => 0 < tickDelta) tickDeltas ->
  exists c',
    ticks tickDeltas c = Some c' /\ _animId c' = _animId c /\
    shown c' = shown c
               ++ replicate (List.length tickDeltas) (head (frames a)).
Proof.
  induction tickDeltas as [|tickDelta rest IH];
    intros c ref a Hp Hm Hft Hloop Hcd Hall.
  - exists c. simpl. by rewrite app_nil_r.
  - apply Forall_cons in Hall as [Hd Hall].
    destruct (tick_still_step c ref a tickDelta Hp Hm Hft Hloop Hcd Hd)
      as (c1 & Ht & Hp1 & Hid1 & Hsh1).
    destruct (IH c1 ref _ Hp1) as (c' & Hts & Hid' & Hsh'); try done.
    + simpl. lia.
    + exists c'. simpl. rewrite Ht. split; [done|]. split; [congruence|].
      rewrite Hsh', Hsh1, <- app_assoc. done.
Qed.

(** X23: an animation defined with an [fps] above 1000, or of 0, to loop
    for ever has the frame time 0; once started it shows its first frame
    ([undefined] when it has no frame) at every tick, however much time
    passes. *)
Theorem fast_animation_shows_first_frame id frames fps now tickDeltas c :
  fps = 0 \/ 1000 < fps ->
  Forall (fun tickDelta => 0 < tickDelta) tickDeltas ->
  exists c',
    ticks tickDeltas (start id now (define id frames fps (-1) c)) = Some c' /\
    _animId c' = Some id /\
    shown c' = shown c ++ replicate (List.length tickDeltas) (head frames).
Proof.
  intros Hfps Hall.
  assert (Hft : orZero (divide 1000 fps) = 0).
  { rewrite frameTime_of_fps. destruct Hfps as [->|Hfast]; [done|].
    destruct (Z.eqb_spec fps 0); [done|]. apply Z.quot_small. lia. }
  pose proof (start_define_playing id frames fps (-1) now c) as Hp.
  destruct (ticks_still_run tickDeltas _ _ _ Hp (conj eq_refl eq_refl) Hft
                            eq_refl (Z.le_refl 0) Hall)
    as (c' & Ht & Hid & Hsh).
  assert (Hstart :
    _animId (start id now (define id frames fps (-1) c)) = Some id /\
    shown (start id now (define id frames fps (-1) c)) = shown c).
  { unfold start, define. cbn [_anims]. by rewrite lookup_insert_eq. }
  destruct Hstart as [Hid0 Hsh0].
  exists c'. rewrite Hid, Hsh, Hid0, Hsh0. done.
Qed.


End AnimationComponent.

(** ** The properties of the component on the walking entity *)

Lemma tick_fails_iff_not_started_witness :
  Reachable (stop walking) /\
  (tick 150 (stop walking) = None <-> _anim (stop walking) = None).
Proof.
  assert (Hr : Reachable (stop walking))
    by apply reach_stop, reach_start, reach_define, reach_init.
  split; [exact Hr|].
  exact (tick_fails_iff_not_started 150 (stop walking) Hr).
Defined.

Lemma define_commutes_with_tick_witness :
  Reachable walking /\
  tick 150 (define 0%nat [7; 8] 5 0 walking)
  = define 0%nat [7; 8] 5 0 <$> tick 150 walking.
Proof.
  assert (Hr : Reachable walking)
    by apply reach_start, reach_define, reach_init.
  split; [exact Hr|].
  exact (define_commutes_with_tick 0%nat [7; 8] 5 0 150 walking Hr).
Defined.

Lemma tick_loops_back_witness :
  Playing walking 0 (walkAnim (-1)) /\ Made (walkAnim (-1)) /\
  loop (walkAnim (-1)) = -1 /\ 0 < frameTime (walkAnim (-1)) /\
  frames (walkAnim (-1)) <> [] /\
  0 <= currentDelta (walkAnim (-1)) <= totalTime (walkAnim (-1)) /\
  0 <= 450 /\ currentDelta (walkAnim (-1)) + 450 < 2 ^ 31 /\
  exists c' a' cell,
    tick 450 walking = Some c' /\ Playing c' 0 a' /\
    _animId c' = _animId walking /\ sameAnimation (walkAnim (-1)) a' /\
    currentLoop a' = currentLoop (walkAnim (-1)) /\
    currentDelta a'
    = (if currentDelta (walkAnim (-1)) + 450 <=? totalTime (walkAnim (-1))
       then currentDelta (walkAnim (-1)) + 450
       else (currentDelta (walkAnim (-1)) + 450)
            mod totalTime (walkAnim (-1))) /\
    0 <= currentDelta a' <= totalTime (walkAnim (-1)) /\
    shown c' = shown walking ++ [Some cell] /\
    frames (walkAnim (-1))
    !! Z.to_nat (Z.min (currentDelta a' / frameTime (walkAnim (-1)))
                       (frameCount (walkAnim (-1)) - 1)) = Some cell.
Proof.
  assert (Hp : Playing walking 0 (walkAnim (-1)))
    by (split; vm_compute; reflexivity).
  assert (Hm : Made (walkAnim (-1))) by (split; vm_compute; reflexivity).
  assert (Hl : loop (walkAnim (-1)) = -1) by reflexivity.
  assert (Hft : 0 < frameTime (walkAnim (-1))) by (simpl; lia).
  assert (Hne : frames (walkAnim (-1)) <> []) by (simpl; discriminate).
  assert (Hcd : 0 <= currentDelta (walkAnim (-1)) <= totalTime (walkAnim (-1)))
    by (simpl; lia).
  assert (Hd : 0 <= 450) by lia.
  assert (Hb : currentDelta (walkAnim (-1)) + 450 < 2 ^ 31) by (simpl; lia).
  repeat (split; [assumption|]).
  exact (tick_loops_back walking 0%nat (walkAnim (-1)) 450
           Hp Hm Hl Hft Hne Hcd Hd Hb).
Defined.

Lemma ticks_loop_for_ever_witness :
  Playing walking 0 (walkAnim (-1)) /\ Made (walkAnim (-1)) /\
  loop (walkAnim (-1)) = -1 /\ 0 < frameTime (walkAnim (-1)) /\
  frames (walkAnim (-1)) <> [] /\
  0 <= currentDelta (walkAnim (-1)) <= totalTime (walkAnim (-1)) /\
  Forall (fun tickDelta =>
            0 <= tickDelta /\ totalTime (walkAnim (-1)) + tickDelta < 2 ^ 31)
         [150; 150; 150] /\
  exists c' a' cells,
    ticks [150; 150; 150] walking = Some c' /\ Playing c' 0 a' /\
    _animId c' = _animId walking /\ sameAnimation (walkAnim (-1)) a' /\
    0 <= currentDelta a' <= totalTime (walkAnim (-1)) /\
    currentDelta a' mod totalTime (walkAnim (-1))
    = (currentDelta (walkAnim (-1)) + foldr Z.add 0 [150; 150; 150])
      mod totalTime (walkAnim (-1)) /\
    shown c' = shown walking ++ (Some <$> cells) /\
    List.length cells = List.length [150; 150; 150] /\
    Forall (fun cell => cell ∈ frames (walkAnim (-1))) cells.
Proof.
  assert (Hp : Playing walking 0 (walkAnim (-1)))
    by (split; vm_compute; reflexivity).
  assert (Hm : Made (walkAnim (-1))) by (split; vm_compute; reflexivity).
  assert (Hl : loop (walkAnim (-1)) = -1) by reflexivity.
  assert (Hft : 0 < frameTime (walkAnim (-1))) by (simpl; lia).
  assert (Hne : frames (walkAnim (-1)) <> []) by (simpl; discriminate).
  assert (Hcd : 0 <= currentDelta (walkAnim (-1)) <= totalTime (walkAnim (-1)))
    by (simpl; lia).
  assert (Hall :
    Forall (fun tickDelta =>
              0 <= tickDelta /\ totalTime (walkAnim (-1)) + tickDelta < 2 ^ 31)
           [150; 150; 150])
    by (repeat constructor; simpl; lia).
  repeat (split; [assumption|]).
  exact (ticks_loop_for_ever [150; 150; 150] walking 0%nat (walkAnim (-1))
           Hp Hm Hl Hft Hne Hcd Hall).
Defined.

Lemma tick_ends_single_run_witness :
  Playing walkingOnce 0 (walkAnim 0) /\ Made (walkAnim 0) /\
  loop (walkAnim 0) = 0 /\ 0 < frameTime (walkAnim 0) /\
  totalTime (walkAnim 0) < currentDelta (walkAnim 0) + 450 < 2 ^ 31 /\
  exists c',
    tick 450 walkingOnce = Some c' /\
    _anim c' = None /\ _animId c' = None /\
    shown c' = shown walkingOnce ++ [last (frames (walkAnim 0))] /\
    forall tickDelta', tick tickDelta' c' = None.
Proof.
  assert (Hp : Playing walkingOnce 0 (walkAnim 0))
    by (split; vm_compute; reflexivity).
  assert (Hm : Made (walkAnim 0)) by (split; vm_compute; reflexivity).
  assert (Hl : loop (walkAnim 0) = 0) by reflexivity.
  assert (Hft : 0 < frameTime (walkAnim 0)) by (simpl; lia).
  assert (Hcd : totalTime (walkAnim 0) < currentDelta (walkAnim 0) + 450
                < 2 ^ 31) by (simpl; lia).
  repeat (split; [assumption|]).
  exact (tick_ends_single_run walkingOnce 0%nat (walkAnim 0) 450
           Hp Hm Hl Hft Hcd).
Defined.

Lemma tick_counted_loop_witness :
  (Playing walkingThrice 0 (walkAnim 2) /\ Made (walkAnim 2) /\
   0 < loop (walkAnim 2) /\ 0 < frameTime (walkAnim 2) /\
   frames (walkAnim 2) <> [] /\
   totalTime (walkAnim 2) < currentDelta (walkAnim 2) + 450 < 2 ^ 31 /\
   currentLoop (walkAnim 2) < loop (walkAnim 2) /\
   exists c' a' cell,
     tick 450 walkingThrice = Some c' /\ Playing c' 0 a' /\
     _animId c' = _animId walkingThrice /\ sameAnimation (walkAnim 2) a' /\
     currentLoop a' = currentLoop (walkAnim 2) + 1 /\
     currentDelta a'
     = (currentDelta (walkAnim 2) + 450) mod totalTime (walkAnim 2) /\
     shown c' = shown walkingThrice ++ [Some cell] /\
     frames (walkAnim 2)
     !! Z.to_nat (Z.min (currentDelta a' / frameTime (walkAnim 2))
                        (frameCount (walkAnim 2) - 1)) = Some cell) /\
  (ticks [450; 450] walkingThrice = Some walkingRepeated /\
   Playing walkingRepeated 0 walkAnimRepeated /\ Made walkAnimRepeated /\
   0 < loop walkAnimRepeated /\ 0 < frameTime walkAnimRepeated /\
   frames walkAnimRepeated <> [] /\
   totalTime walkAnimRepeated < currentDelta walkAnimRepeated + 450 < 2 ^ 31 /\
   loop walkAnimRepeated <= currentLoop walkAnimRepeated /\
   exists c' a',
     tick 450 walkingRepeated = Some c' /\
     _anim c' = None /\ _animId c' = None /\
     store c' !! 0%nat = Some a' /\ sameAnimation walkAnimRepeated a' /\
     currentLoop a' = currentLoop walkAnimRepeated + 1 /\
     currentDelta a' = currentDelta walkAnimRepeated + 450 /\
     shown c' = shown walkingRepeated ++ [last (frames walkAnimRepeated)]).
Proof.
  split.
  - assert (Hp : Playing walkingThrice 0 (walkAnim 2))
      by (split; vm_compute; reflexivity).
    assert (Hm : Made (walkAnim 2)) by (split; vm_compute; reflexivity).
    assert (Hl : 0 < loop (walkAnim 2)) by (simpl; lia).
    assert (Hft : 0 < frameTime (walkAnim 2)) by (simpl; lia).
    assert (Hne : frames (walkAnim 2) <> []) by (simpl; discriminate).
    assert (Hcd : totalTime (walkAnim 2) < currentDelta (walkAnim 2) + 450
                  < 2 ^ 31) by (simpl; lia).
    assert (Hmore : currentLoop (walkAnim 2) < loop (walkAnim 2))
      by (simpl; lia).
    repeat (split; [assumption|]).
    exact (proj1 (tick_counted_loop walkingThrice 0%nat (walkAnim 2) 450
                    Hp Hm Hl Hft Hne Hcd) Hmore).
  - assert (Hrun : ticks [450; 450] walkingThrice = Some walkingRepeated)
      by (vm_compute; reflexivity).
    assert (Hp : Playing walkingRepeated 0 walkAnimRepeated)
      by (split; vm_compute; reflexivity).
    assert (Hm : Made walkAnimRepeated) by (split; vm_compute; reflexivity).
    assert (Hl : 0 < loop walkAnimRepeated) by (simpl; lia).
    assert (Hft : 0 < frameTime walkAnimRepeated) by (simpl; lia).
    assert (Hne : frames walkAnimRepeated <> []) by (simpl; discriminate).
    assert (Hcd : totalTime walkAnimRepeated
                  < currentDelta walkAnimRepeated + 450 < 2 ^ 31)
      by (simpl; lia).
    assert (Hdone : loop walkAnimRepeated <= currentLoop walkAnimRepeated)
      by (simpl; lia).
    repeat (split; [assumption|]).
    exact (proj2 (tick_counted_loop walkingRepeated 0%nat walkAnimRepeated 450
                    Hp Hm Hl Hft Hne Hcd) Hdone).
Defined.

Lemma fast_animation_shows_first_frame_witness :
  ((2000 = 0 \/ 1000 < 2000) /\
   Forall (fun tickDelta => 0 < tickDelta) [16; 16]) /\
  exists c' : Component nat Z,
    ticks [16; 16] (start 0%nat 5000 (define 0%nat walkCells 2000 (-1) init))
    = Some c' /\
    _animId c' = Some 0%nat /\
    shown c' = shown (init : Component nat Z)
               ++ replicate (List.length [16; 16]) (head walkCells).
Proof.
  assert (Hfps : 2000 = 0 \/ 1000 < 2000) by (right; lia).
  assert (Hall : Forall (fun tickDelta => 0 < tickDelta) [16; 16])
    by (repeat constructor; lia).
  split; [split; assumption|].
  exact (fast_animation_shows_first_frame 0%nat walkCells 2000 5000 [16; 16]
           init Hfps Hall).
Defined.

